(** * Cutting-plane reformulation of disjunctive programs (pyomo.gdp.plugins.cuttingplane)

    A shallow embedding of [cuttingplane.py]: the two cut generators, the two
    back-off procedures, the subproblem builder and the separation loop of
    [CuttingPlane_Transformation].

    Conventions of the embedding.
    - Python floats are read as exact rationals ([Q]); [float("inf")] is the
      extra value [PInf] of [xfloat].  Rounding is not modelled.
    - A variable data object is identified by a number (its [id()]); the
      [.value] attributes of all variable objects live in one table
      ([values : var -> Q]), so that an expression is evaluated against the
      values its variables hold at that moment, as [value(expr)] does.
      Every variable and every target slot carries a number: Pyomo's [None]
      for a variable no solver ever touched is not modelled.
    - Code of the repository that is outside this module (solver, big-M and hull
      reformulations, differentiation, Fourier-Motzkin elimination, parts of the
      model representation) is collected in the class [Collaborators].
    - An exception is a result ([Raise]) that keeps the state reached so far,
      as a Python exception leaves the mutated objects behind. *)

From Stdlib Require Import QArith Qabs Lqa String.
From stdpp Require Import gmap list.

Local Open Scope Q_scope.

(** ** Numbers *)

(** [a < b] on floats, as a boolean. *)
Definition Qltb (a b : Q) : bool := negb (Qle_bool b a).


(** A float that is a number or [float("inf")]. *)
Inductive xfloat : Type :=
| Fin (q : Q)
| PInf.

(** ** Expressions *)

Definition var := nat.

Inductive expr : Type :=
| Num (q : Q)                (* a Python number *)
| V (v : var)                (* a variable data object *)
| Prm (i : nat)              (* xstar[i], a mutable parameter *)
| Plus (a b : expr)
| Minus (a b : expr)
| Times (a b : expr)
| Square (a : expr).         (* a ** 2 *)

(** [a <= b] with [args = (a, b)]; Pyomo builds [e >= c] as [c <= e]. *)
Record ineq : Type := Le { arg0 : expr; arg1 : expr }.

Inductive relexpr : Type :=
| RIneq (i : ineq)
| REq (a b : expr)
| RRanged (l b u : expr).

(** [value(e)]: [vals] gives the [.value] of the variables, [prm] of [xstar]. *)
Fixpoint value (vals : var -> Q) (prm : nat -> Q) (e : expr) : Q :=
  match e with
  | Num q => q
  | V v => vals v
  | Prm i => prm i
  | Plus a b => value vals prm a + value vals prm b
  | Minus a b => value vals prm a - value vals prm b
  | Times a b => value vals prm a * value vals prm b
  | Square a => value vals prm a * value vals prm a
  end.

(** [value(cut)] of an inequality expression: is it satisfied? *)
Definition value_ineq (vals : var -> Q) (prm : nat -> Q) (c : ineq) : bool :=
  Qle_bool (value vals prm (arg0 c)) (value vals prm (arg1 c)).

(** Modelled from the spec: [clone_without_expression_components(e,
    substitute=m)] of [pyomo.gdp.util] ("translate ... from hull variables to
    linear-relaxation variables via the correspondence map"): a copy of [e]
    in which every variable whose id is a key of [m] is replaced. *)
Fixpoint substitute (m : gmap var var) (e : expr) : expr :=
  match e with
  | Num q => Num q
  | V v => match m !! v with Some v' => V v' | None => V v end
  | Prm i => Prm i
  | Plus a b => Plus (substitute m a) (substitute m b)
  | Minus a b => Minus (substitute m a) (substitute m b)
  | Times a b => Times (substitute m a) (substitute m b)
  | Square a => Square (substitute m a)
  end.

Definition substitute_ineq (m : gmap var var) (c : ineq) : ineq :=
  Le (substitute m (arg0 c)) (substitute m (arg1 c)).

(** ** The model representation *)

(** A constraint data object: [lower <= body <= upper], either bound optional. *)
Record ConstraintData : Type := {
  lower : option expr;
  body : expr;
  upper : option expr
}.

(** [cut._body += pad]. *)
Definition add_to_body (c : ConstraintData) (pad : Q) : ConstraintData :=
  {| lower := lower c; body := Plus (body c) (Num pad); upper := upper c |}.

Fixpoint potentially_variable (e : expr) : bool :=
  match e with
  | Num _ | Prm _ => false
  | V _ => true
  | Plus a b | Minus a b | Times a b => potentially_variable a || potentially_variable b
  | Square a => potentially_variable a
  end.

(** Modelled from the spec: what [Constraint.add(index, a <= b)] of the model
    representation stores ("constraints: expressions with optional lower/upper
    bounds"): a side without variables becomes the bound, the other side the
    body; with variables on both sides the body is [a - b] and the upper
    bound 0. *)
Definition set_value (c : ineq) : ConstraintData :=
  if negb (potentially_variable (arg1 c)) then
    {| lower := None; body := arg0 c; upper := Some (arg1 c) |}
  else if negb (potentially_variable (arg0 c)) then
    {| lower := Some (arg0 c); body := arg1 c; upper := None |}
  else
    {| lower := None; body := Minus (arg0 c) (arg1 c); upper := Some (Num 0) |}.

(** Modelled from the spec: a point satisfies a constraint when the value of
    the body lies within the bounds that are present. *)
Definition satisfied (vals : var -> Q) (prm : nat -> Q) (c : ConstraintData) : bool :=
  match lower c with
  | Some l => Qle_bool (value vals prm l) (value vals prm (body c))
  | None => true
  end &&
  match upper c with
  | Some u => Qle_bool (value vals prm (body c)) (value vals prm u)
  | None => true
  end.

Record ObjectiveData : Type := {
  o_expr : expr;
  o_active : bool
}.

Record VarData : Type := {
  v_id : var;
  v_fixed : bool;              (* v.is_fixed() *)
  v_on_disjunct : bool         (* declared on a Disjunct, not on a Block *)
}.

Record Disjunct : Type := {
  (* the variables of transformation_block().disaggregatedVars, when the
     disjunct has a transformation block *)
  transformation_block : option (list var)
}.

Record Disjunction : Type := {
  disjuncts : list Disjunct
}.

(** A model instance.  Constraints carry the identity of their data object. *)
Record Model : Type := {
  m_vars : list VarData;
  m_constraints : list (nat * ConstraintData);   (* the active ones *)
  m_objectives : list ObjectiveData;
  m_disjunctions : list Disjunction
}.

(** The transformation block [_pyomo_gdp_cuttingplane_transformation].  A model
    and its block are passed side by side: [instance.component(transBlockName)]
    is the block that accompanies [instance]. *)
Record TransBlock : Type := {
  all_vars : list var;
  cuts : gmap nat ConstraintData
}.

(** The block of the hull instance, with what [_setup_subproblems] adds to it. *)
Record HullBlock : Type := {
  h_all_vars : list var;
  h_cuts : gmap nat ConstraintData;
  xstar : nat -> Q;                              (* xstar[i].value *)
  extendedSpaceCuts : gmap nat ConstraintData;   (* on a deactivated block *)
  separation_objective : ObjectiveData;
  infeasibility_objective : option ObjectiveData
}.

(** A variable correspondence triple [(x_rbigm, x_hull, x_star)]. *)
Record triple : Type := {
  x_rbigm : var;
  x_hull : var;
  x_star : nat          (* the index of the slot of xstar *)
}.

(** ** Effects *)

Inductive exn : Type :=
| GDP_Error | NameError | ZeroDivisionError | KeyError | IndexError.

Inductive outcome (A : Type) : Type :=
| Ok (a : A)
| Raise (e : exn).
Arguments Ok {A} a.
Arguments Raise {A} e.

(** [x ← c; k] runs [k] when [c] returned and passes its exception on otherwise. *)
#[export] Instance outcome_bind : MBind outcome := fun A B f x =>
  match x with
  | Ok a => f a
  | Raise e => Raise e
  end.

Inductive warning : Type :=
| rBigM_did_not_solve_normally
| separation_did_not_solve_normally
| rBigM_objective_is (q : Q)
| adding_cut (cut_number : nat)
| back_off_did_not_solve_normally.

(** What the run does to the outside, in order. *)
Inductive event : Type :=
| Solve_rBigM
| Solve_rHull
| Create_cuts
| Post_process (cut_number : nat)
| Warning (w : warning).

Record World : Type := {
  values : var -> Q;       (* v.value of every variable data object *)
  log : list event
}.

Definition emit (e : event) (w : World) : World :=
  {| values := values w; log := log w ++ [e] |}.

Definition set_values (vals : var -> Q) (w : World) : World :=
  {| values := vals; log := log w |}.

(** [v.value = q]. *)
Definition set_var (v : var) (q : Q) (vals : var -> Q) : var -> Q :=
  fun v' => if Nat.eqb v' v then q else vals v'.

Inductive SolveStatus : Type := NORMAL | INFEASIBLE | NONOPTIMAL.

Definition is_NORMAL (s : SolveStatus) : bool :=
  match s with NORMAL => true | _ => false end.

(** ** Collaborators

    Code of the repository this module calls and does not define. *)
Class Collaborators : Type := {
  SolverResults : Type;
  (* pyomo.gdp.util.verify_successful_solve *)
  verify_successful_solve : SolverResults -> SolveStatus;
  (* opt.solve(instance_rBigM): the results and the values it loads *)
  solve_rBigM : Model -> TransBlock -> (var -> Q) -> SolverResults * (var -> Q);
  (* opt.solve(instance_rHull) *)
  solve_rHull : Model -> HullBlock -> (var -> Q) -> SolverResults * (var -> Q);
  (* pyomo.core.expr.differentiate(f, wrt_list=...) *)
  differentiate : expr -> list var -> list expr;
  (* f.polynomial_degree() *)
  polynomial_degree : expr -> option nat;
  (* constraint.expr *)
  constraint_expr : ConstraintData -> relexpr;
  (* contrib.fourier_motzkin_elimination: the expressions of the projected
     constraints, each of the form lb <= body *)
  fourier_motzkin_elimination : list relexpr -> list var -> Q -> list ineq;
  (* fme._process_constraint *)
  fme_process_constraint : ConstraintData -> list ConstraintData;
  (* gdp.hull create_using: a new model, with the copy of the block *)
  hull_create_using : Model -> TransBlock -> Model * TransBlock;
  hull_get_src_var : var -> var;
  hull_get_disaggregation_constraint : var -> Disjunction -> nat;
  (* gdp.bigm apply_to, in place; the block of this module is not its concern *)
  bigm_apply_to : Model -> option Q -> Model;
  (* core.relax_integer_vars apply_to, in place *)
  relax_integer_vars : Model -> bool -> Model;
  unique_component_name : Model -> string -> string
}.

(** A loop whose body can raise. *)
Fixpoint for_each {A S : Type} (f : S -> A -> outcome S) (l : list A) (s : S) : outcome S :=
  match l with
  | [] => Ok s
  | a :: rest => s' ← f s a; for_each f rest s'
  end.

(** ** The cut generators *)

Section Generators.
Context `{Collaborators}.

Definition do_not_tighten (m : Model) : Model := m.

Definition _get_constraint_exprs (constraints : list ineq)
    (hull_to_bigm_map : gmap var var) : list ineq :=
  map (substitute_ineq hull_to_bigm_map) constraints.

Definition _constraint_tight (vals : var -> Q) (prm : nat -> Q)
    (constraint : ConstraintData) : Z :=
  let val := value vals prm (body constraint) in
  let ans := 0%Z in
  let ans := match lower constraint with
             | Some l => if Qle_bool val (value vals prm l) then (ans - 1)%Z else ans
             | None => ans
             end in
  let ans := match upper constraint with
             | Some u => if Qle_bool (value vals prm u) val then (ans + 1)%Z else ans
             | None => ans
             end in
  ans.

(** [sum(normal_vec[idx]*v.value for (idx, v) in enumerate(point))], from
    index [idx] on; [normal_vec[idx]] raises past the end of the list. *)
Fixpoint sum_normal_times_value (vals : var -> Q) (normal_vec : list Q)
    (idx : nat) (point : list var) (acc : Q) : outcome Q :=
  match point with
  | [] => Ok acc
  | v :: rest =>
      match normal_vec !! idx with
      | Some n => sum_normal_times_value vals normal_vec (S idx) rest (acc + n * vals v)
      | None => Raise IndexError
      end
  end.

Definition _get_linear_approximation_expr (vals : var -> Q)
    (normal_vec : list Q) (point : list var) : outcome ineq :=
  let body := fold_left (fun body cv => Minus body (Times (V (fst cv)) (Num (snd cv))))
                        (zip point normal_vec) (Num 0) in
  s ← sum_normal_times_value vals normal_vec 0 point 0;
  Ok (Le (Num (- s)) body).

(** The list [composite_normal]: the vectors of [normal_vectors] (a list that
    is not empty) are zipped together and each column is summed, with
    Python's [sum], as far as the shortest vector goes. *)
Fixpoint column_sums (normal_vectors : list (list Q)) : list Q :=
  match normal_vectors with
  | [] => []
  | [v] => map (fun x => 0 + x) v
  | v :: rest => zip_with Qplus v (column_sums rest)
  end.

(** The first loop of [create_cuts_fme], one constraint of the hull instance. *)
Definition collect_tight (vals : var -> Q) (prm : nat -> Q) (rHull_vars : list var)
    (disaggregation_constraints : gset nat)
    (acc : list (list Q) * list relexpr) (c : nat * ConstraintData)
    : outcome (list (list Q) * list relexpr) :=
  let '(normal_vectors, conslist) := acc in
  let constraint := snd c in
  let multiplier := _constraint_tight vals prm constraint in
  if negb (Z.eqb multiplier 0) then
    let f := body constraint in
    let firstDerivs := differentiate f rHull_vars in
    let normal_vec := map (fun d => inject_Z multiplier * value vals prm d) firstDerivs in
    let normal_vectors := normal_vectors ++ [normal_vec] in
    if bool_decide (polynomial_degree f = Some 1%nat) then
      Ok (normal_vectors, conslist ++ [constraint_expr constraint])
    else
      e ← _get_linear_approximation_expr vals normal_vec rHull_vars;
      Ok (normal_vectors, conslist ++ [RIneq e])
  else if bool_decide (fst c ∈ disaggregation_constraints) then
    Ok (normal_vectors, conslist ++ [constraint_expr constraint])
  else Ok (normal_vectors, conslist).

(** [composite_normal_map[v]]. *)
Definition getitem (m : gmap var Q) (v : var) : outcome Q :=
  match m !! v with
  | Some n => Ok n
  | None => Raise KeyError
  end.

(** One step of the loop that keeps the best cut (lines 210-227). *)
Definition keep_best (vals : var -> Q) (prm : nat -> Q) (cut_threshold : Q)
    (acc : Q * option ineq) (cut : ineq) : Q * option ineq :=
  let '(best, best_cut) := acc in
  if value_ineq vals prm cut then acc
  else
    let cut_off := value vals prm (arg0 cut) - value vals prm (arg1 cut) in
    if Qltb cut_threshold cut_off && Qltb best cut_off then (cut_off, Some cut)
    else acc.

(** Lines 208-231: the cuts are visited from the last to the first. *)
Definition select_cut (vals : var -> Q) (prm : nat -> Q) (cut_threshold : Q)
    (cuts : list ineq) : option (list ineq) :=
  match snd (fold_left (keep_best vals prm cut_threshold) (rev cuts) (0, None)) with
  | Some best_cut => Some [best_cut]
  | None => None
  end.

(** Lines 173-181: the part of the cut that involves a disaggregated
    variable; [do_fme] records whether one of them has a coefficient. *)
Definition extend_cut (vals : var -> Q) (composite_normal_map : gmap var Q)
    (acc : expr * list var * bool) (x_disaggregated : var)
    : outcome (expr * list var * bool) :=
  let '(composite_cutexpr_Hull, vars_to_eliminate, do_fme) := acc in
  normal_vec_component ← getitem composite_normal_map x_disaggregated;
  Ok (Plus composite_cutexpr_Hull
           (Times (Num normal_vec_component)
                  (Minus (V x_disaggregated) (Num (vals x_disaggregated)))),
      vars_to_eliminate ++ [x_disaggregated],
      do_fme || negb (Qeq_bool normal_vec_component 0)).

(** Lines 117-201: the projected constraints in the variables of the linear
    relaxation; [None] when no constraint of the hull instance is tight. *)
Definition fme_candidates (var_info : list triple) (hull_to_bigm_map : gmap var var)
    (disaggregated_vars : list var) (disaggregation_constraints : gset nat)
    (rHull_vars : list var) (instance_rHull : Model) (zero_tolerance : Q)
    (vals : var -> Q) (prm : nat -> Q) : outcome (option (list ineq)) :=
  '(normal_vectors, conslist) ←
    for_each (collect_tight vals prm rHull_vars disaggregation_constraints)
             (m_constraints instance_rHull) ([], []);
  if bool_decide (normal_vectors = []) then Ok None
  else
    let composite_normal := column_sums normal_vectors in
    let composite_normal_map :=
      fold_left (fun m vn => <[fst vn := snd vn]> m) (zip rHull_vars composite_normal)
                (∅ : gmap var Q) in
    composite_cutexpr_Hull ←
      for_each (fun e t =>
                  n ← getitem composite_normal_map (x_hull t);
                  Ok (Plus e (Times (Num n) (Minus (V (x_hull t)) (Num (vals (x_hull t)))))))
               var_info (Num 0);
    '(composite_cutexpr_Hull, vars_to_eliminate, do_fme) ←
      for_each (extend_cut vals composite_normal_map)
               disaggregated_vars (composite_cutexpr_Hull, [], false);
    let conslist := conslist ++ [RIneq (Le composite_cutexpr_Hull (Num 0))] in
    let projected_constraints :=
      if (do_fme : bool)
      then fourier_motzkin_elimination conslist vars_to_eliminate zero_tolerance
      else [Le composite_cutexpr_Hull (Num 0)] in
    Ok (Some (_get_constraint_exprs projected_constraints hull_to_bigm_map)).

Definition create_cuts_fme (var_info : list triple) (hull_to_bigm_map : gmap var var)
    (disaggregated_vars : list var) (disaggregation_constraints : gset nat)
    (rHull_vars : list var) (instance_rHull : Model)
    (rBigM_linear_constraints : list ConstraintData)
    (transBlock_rBigm : TransBlock) (transBlock_rHull : HullBlock)
    (cut_threshold zero_tolerance : Q) (vals : var -> Q)
    : outcome (option (list ineq)) :=
  candidates ← fme_candidates var_info hull_to_bigm_map disaggregated_vars
                 disaggregation_constraints rHull_vars instance_rHull zero_tolerance
                 vals (xstar transBlock_rHull);
  match candidates with
  | None => Ok None
  | Some cuts => Ok (select_cut vals (xstar transBlock_rHull) cut_threshold cuts)
  end.

(** The sum [cutexpr] of lines 240-242. *)
Definition normal_vector_cutexpr (var_info : list triple) (vals : var -> Q)
    (prm : nat -> Q) : expr :=
  fold_left (fun cutexpr t =>
               Plus cutexpr (Times (Num (vals (x_hull t) - prm (x_star t)))
                                   (Minus (V (x_rbigm t)) (Num (vals (x_hull t))))))
            var_info (Num 0).

Definition create_cuts_normal_vector (var_info : list triple)
    (hull_to_bigm_map : gmap var var)
    (disaggregated_vars : list var) (disaggregation_constraints : gset nat)
    (rHull_vars : list var) (instance_rHull : Model)
    (rBigM_linear_constraints : list ConstraintData)
    (transBlock_rBigM : TransBlock) (transBlock_rHull : HullBlock)
    (TOL zero_tolerance : Q) (vals : var -> Q)
    : outcome (option (list ineq)) :=
  let cutexpr := normal_vector_cutexpr var_info vals (xstar transBlock_rHull) in
  if Qltb (value vals (xstar transBlock_rHull) cutexpr) (- TOL)
  then Ok (Some [Le (Num 0) cutexpr])
  else Ok None.

End Generators.

(** ** The cut post-processors *)

(** What a post-processor is given and may change: the hull instance with its
    block, the cut, and the values of the variables. *)
Definition post_process_callback : Type :=
  Model -> HullBlock -> ConstraintData -> gmap var var -> Q -> World ->
  outcome unit * (HullBlock * ConstraintData * World).

(** The pieces of what a post-processor leaves. *)
Definition cut_after (r : outcome unit * (HullBlock * ConstraintData * World))
    : ConstraintData := snd (fst (snd r)).

Definition block_after (r : outcome unit * (HullBlock * ConstraintData * World))
    : HullBlock := fst (fst (snd r)).

(** What a cut generator is given; it returns the candidate cuts or [None]
    and changes nothing. *)
Definition create_cuts_callback : Type :=
  list triple -> gmap var var -> list var -> gset nat -> list var -> Model ->
  list ConstraintData -> TransBlock -> HullBlock -> Q -> Q -> (var -> Q) ->
  outcome (option (list ineq)).

Definition activate (o : ObjectiveData) : ObjectiveData :=
  {| o_expr := o_expr o; o_active := true |}.

Definition deactivate (o : ObjectiveData) : ObjectiveData :=
  {| o_expr := o_expr o; o_active := false |}.

Definition with_objectives (tb : HullBlock) (sep : ObjectiveData)
    (inf : option ObjectiveData) : HullBlock :=
  {| h_all_vars := h_all_vars tb; h_cuts := h_cuts tb; xstar := xstar tb;
     extendedSpaceCuts := extendedSpaceCuts tb;
     separation_objective := sep; infeasibility_objective := inf |}.

Section PostProcessors.
Context `{Collaborators}.

Definition _restore_objective (instance_rHull : Model) (transBlock_rHull : HullBlock)
    : HullBlock :=
  (* del_component(infeasibility_objective); separation_objective.activate() *)
  with_objectives transBlock_rHull (activate (separation_objective transBlock_rHull)) None.

Definition back_off_constraint_with_calculated_cut_violation : post_process_callback :=
  fun instance_rHull transBlock_rHull cut bigm_to_hull_map TOL w =>
  let infeasibility :=
    {| o_expr := substitute bigm_to_hull_map (body cut); o_active := true |} in
  let transBlock_rHull :=
    with_objectives transBlock_rHull
      (deactivate (separation_objective transBlock_rHull)) (Some infeasibility) in
  let '(results, vals) := solve_rHull instance_rHull transBlock_rHull (values w) in
  let w := emit Solve_rHull (set_values vals w) in
  if negb (is_NORMAL (verify_successful_solve results)) then
    let w := emit (Warning back_off_did_not_solve_normally) w in
    (* _restore_objective(instance_rHull, transBlock_rHull, orig_obj): the
       name orig_obj is bound nowhere, its evaluation raises before the call *)
    (Raise NameError, (transBlock_rHull, cut, w))
  else
    let val := value (values w) (xstar transBlock_rHull) (o_expr infeasibility) - TOL in
    let cut := if Qle_bool val 0 then add_to_body cut (Qabs val) else cut in
    (Ok (), (_restore_objective instance_rHull transBlock_rHull, cut, w)).

Definition back_off_constraint_by_fixed_tolerance : post_process_callback :=
  fun instance_rHull transBlock_rHull cut bigm_to_hull_map TOL w =>
  (Ok (), (transBlock_rHull, add_to_body cut TOL, w)).

End PostProcessors.

(** ** Configuration

    The options the embedding uses; the solver itself, its options and the
    stream and verbose flags belong to the collaborators and to logging. *)
Record Config : Type := {
  minimum_improvement_threshold : Q;
  (* the model the callback returns, and the instance with its block as the
     callback leaves them (a callback may work in place) *)
  tighten_relaxation : Model -> TransBlock -> Model * (Model * TransBlock);
  create_cuts : create_cuts_callback;
  post_process_cut : option post_process_callback;
  back_off_problem_tolerance : Q;
  cut_filtering_threshold : Q;
  zero_tolerance : Q
}.

(** ** The subproblem builder *)

Record Subproblems : Type := {
  instance_rBigM : Model;
  block_rBigM : TransBlock;
  instance_rHull : Model;
  block_rHull : HullBlock;
  var_info : list triple;
  disaggregated_vars : list var;
  disaggregation_constraints : gset nat;
  rBigM_linear_constraints : list ConstraintData;
  transBlockName : string
}.

Section Builder.
Context `{Collaborators}.

Definition _add_relaxation_block (instance : Model) (name : string)
    : string * TransBlock :=
  let transBlockName :=
    unique_component_name instance "_pyomo_gdp_cuttingplane_transformation" in
  (transBlockName, {| all_vars := []; cuts := ∅ |}).

(** The inner loops of [_get_disaggregated_vars], for one disjunction. *)
Definition disaggregated_of (disjunction : Disjunction)
    (acc : list var * gset nat) : list var * gset nat :=
  fold_left (fun acc disjunct =>
               match transformation_block disjunct with
               | Some vs =>
                   fold_left (fun (acc : list var * gset nat) v =>
                                (fst acc ++ [v],
                                 {[ hull_get_disaggregation_constraint
                                      (hull_get_src_var v) disjunction ]} ∪ snd acc))
                             vs acc
               | None => acc
               end)
            (disjuncts disjunction) acc.

Definition _get_disaggregated_vars (hull : Model) : list var * gset nat :=
  fold_left (fun acc disjunction => disaggregated_of disjunction acc)
            (m_disjunctions hull) ([], ∅).

(** The objective of the separation problem, lines 767-769. *)
Definition separation_expr (var_info : list triple) : expr :=
  fold_left (fun obj_expr t =>
               Plus obj_expr (Square (Minus (V (x_hull t)) (Prm (x_star t)))))
            var_info (Num 0).

Definition _add_separation_objective (var_info : list triple)
    (instance_rHull : Model) (transBlock_rHull : HullBlock) : Model * HullBlock :=
  ({| m_vars := m_vars instance_rHull;
      m_constraints := m_constraints instance_rHull;
      m_objectives := map deactivate (m_objectives instance_rHull);
      m_disjunctions := m_disjunctions instance_rHull |},
   with_objectives transBlock_rHull
     {| o_expr := separation_expr var_info; o_active := true |}
     (infeasibility_objective transBlock_rHull)).

(** The triples of lines 589-593; [all_vars[i]] of the hull block raises past
    its end. *)
Fixpoint make_var_info (i : nat) (vs : list var) (hull_all_vars : list var)
    : outcome (list triple) :=
  match vs with
  | [] => Ok []
  | v :: rest =>
      match hull_all_vars !! i with
      | Some vh =>
          ts ← make_var_info (S i) rest hull_all_vars;
          Ok ({| x_rbigm := v; x_hull := vh; x_star := i |} :: ts)
      | None => Raise IndexError
      end
  end.

Definition _setup_subproblems (instance : Model) (bigM : option Q)
    (tighten_relaxation_callback : Model -> TransBlock -> Model * (Model * TransBlock))
    : outcome Subproblems :=
  let '(transBlockName, transBlock) :=
    _add_relaxation_block instance "_pyomo_gdp_cuttingplane_relaxation" in
  let transBlock :=
    {| all_vars := map v_id (filter (fun v => v_fixed v = false) (m_vars instance));
       cuts := cuts transBlock |} in
  (* we'll store all the cuts we add together *)
  let transBlock := {| all_vars := all_vars transBlock; cuts := ∅ |} in
  let '(tighter_instance, (instance, transBlock)) :=
    tighten_relaxation_callback instance transBlock in
  let '(instance_rHull, clone) := hull_create_using instance transBlock in
  let '(disaggregated_vars, disaggregation_constraints) :=
    _get_disaggregated_vars instance_rHull in
  let instance_rHull := relax_integer_vars instance_rHull false in
  let instance := bigm_apply_to instance bigM in
  let instance := relax_integer_vars instance false in
  let rBigM_linear_constraints :=
    fold_left (fun acc cons =>
                 if bool_decide (polynomial_degree (body (snd cons)) ≠ Some 1%nat)
                 then acc
                 else acc ++ fme_process_constraint (snd cons))
              (m_constraints instance) [] in
  (* the block of the hull instance; its separation objective is filled in
     by _add_separation_objective below, the slots of xstar by the driver *)
  let transBlock_rHull :=
    {| h_all_vars := all_vars clone; h_cuts := cuts clone;
       xstar := fun _ => 0; extendedSpaceCuts := ∅;
       separation_objective := {| o_expr := Num 0; o_active := false |};
       infeasibility_objective := None |} in
  var_info ← make_var_info 0 (all_vars transBlock) (h_all_vars transBlock_rHull);
  let '(instance_rHull, transBlock_rHull) :=
    _add_separation_objective var_info instance_rHull transBlock_rHull in
  Ok {| instance_rBigM := instance; block_rBigM := transBlock;
        instance_rHull := instance_rHull; block_rHull := transBlock_rHull;
        var_info := var_info; disaggregated_vars := disaggregated_vars;
        disaggregation_constraints := disaggregation_constraints;
        rBigM_linear_constraints := rBigM_linear_constraints;
        transBlockName := transBlockName |}.

Definition _create_hull_to_bigm_substitution_map (var_info : list triple)
    : gmap var var :=
  fold_left (fun m t => <[x_hull t := x_rbigm t]> m) var_info ∅.

Definition _create_bigm_to_hull_substition_map (var_info : list triple)
    : gmap var var :=
  fold_left (fun m t => <[x_rbigm t := x_hull t]> m) var_info ∅.

End Builder.

(** ** The separation driver *)

(** The ways out of the loop of [_generate_cuttingplanes]. *)
Inductive exit : Type :=
| rBigM_solve_failed          (* return, line 676 *)
| separation_solve_failed     (* return, line 706 *)
| separation_converged        (* break, line 720 *)
| no_cut_or_not_improving     (* break, line 733 *)
| while_condition_false.      (* improving is false at the head of the loop *)

(** The states of the driver in the words of the specification. *)
Inductive driver_state : Type := ITERATING | CONVERGED | STALLED | SOLVE_FAILED.

Definition state_of_exit (e : exit) : driver_state :=
  match e with
  | rBigM_solve_failed | separation_solve_failed => SOLVE_FAILED
  | separation_converged => CONVERGED
  | no_cut_or_not_improving | while_condition_false => STALLED
  end.

(** How one pass through the body of the loop ends. *)
Inductive flow : Type :=
| Next (improving : bool) (prev_obj : xfloat)   (* back to the head of the loop *)
| Exit (e : exit)
| Raised (e : exn).

Inductive run_result : Type :=
| Finished (e : exit)
| Failed (e : exn)
| Out_of_fuel.

(** What the loop changes. *)
Record State : Type := {
  world : World;
  transBlock_rBigM : TransBlock;
  transBlock_rHull : HullBlock
}.

Definition with_world (w : World) (st : State) : State :=
  {| world := w; transBlock_rBigM := transBlock_rBigM st;
     transBlock_rHull := transBlock_rHull st |}.

Definition with_cuts (cs : gmap nat ConstraintData) (tb : TransBlock) : TransBlock :=
  {| all_vars := all_vars tb; cuts := cs |}.

Definition with_xstar (xs : nat -> Q) (tb : HullBlock) : HullBlock :=
  {| h_all_vars := h_all_vars tb; h_cuts := h_cuts tb; xstar := xs;
     extendedSpaceCuts := extendedSpaceCuts tb;
     separation_objective := separation_objective tb;
     infeasibility_objective := infeasibility_objective tb |}.

(** [obj_diff = prev_obj - rBigM_objVal]. *)
Definition obj_diff (prev_obj : xfloat) (rBigM_objVal : Q) : xfloat :=
  match prev_obj with
  | PInf => PInf
  | Fin p => Fin (p - rBigM_objVal)
  end.


(** Lines 695-698.  [obj_diff] is infinite exactly when [prev_obj] still is
    [float("inf")]; [obj_diff/prev_obj] raises when [prev_obj] is zero. *)
Definition improving_test (prev_obj : xfloat) (rBigM_objVal epsilon : Q) : outcome bool :=
  match prev_obj with
  | PInf => Ok true
  | Fin p =>
      let obj_diff := p - rBigM_objVal in
      if Qltb (Qabs rBigM_objVal) 1 then Ok (Qltb epsilon (Qabs obj_diff))
      else if Qeq_bool p 0 then Raise ZeroDivisionError
      else Ok (Qltb epsilon (Qabs (obj_diff / p)))
  end.

Section Driver.
Context `{Collaborators}.
Variable config : Config.
Variable sub : Subproblems.
Variable rBigM_obj : ObjectiveData.

Definition rHull_vars : list var :=
  map v_id (filter (fun v => v_on_disjunct v = false) (m_vars (instance_rHull sub))).

Definition hull_to_bigm_map : gmap var var :=
  _create_hull_to_bigm_substitution_map (var_info sub).

Definition bigm_to_hull_map : gmap var var :=
  _create_bigm_to_hull_substition_map (var_info sub).

Definition epsilon : Q := minimum_improvement_threshold config.

(** Lines 684-687: copy over xstar, initialize the X values. *)
Definition copy_xstar (st : State) : State :=
  fold_left (fun st t =>
               let q := values (world st) (x_rbigm t) in
               let tb := with_xstar (fun i => if Nat.eqb i (x_star t) then q
                                              else xstar (transBlock_rHull st) i)
                                    (transBlock_rHull st) in
               {| world := set_values (set_var (x_hull t) q (values (world st))) (world st);
                  transBlock_rBigM := transBlock_rBigM st;
                  transBlock_rHull := tb |})
            (var_info sub) st.

(** Lines 736-746, for one cut. *)
Definition add_cut (st : State) (cut : ineq) : outcome unit * State :=
  let cut_number := size (cuts (transBlock_rBigM st)) in
  let w := emit (Warning (adding_cut cut_number)) (world st) in
  let store := <[cut_number := set_value cut]> (cuts (transBlock_rBigM st)) in
  let st := {| world := w; transBlock_rBigM := with_cuts store (transBlock_rBigM st);
               transBlock_rHull := transBlock_rHull st |} in
  match post_process_cut config with
  | None => (Ok (), st)
  | Some post_process =>
      match store !! cut_number with
      | None => (Raise KeyError, st)
      | Some c =>
          let '(r, (tb, c', w)) :=
            post_process (instance_rHull sub) (transBlock_rHull st) c bigm_to_hull_map
                         (back_off_problem_tolerance config)
                         (emit (Post_process cut_number) (world st)) in
          (r, {| world := w;
                 transBlock_rBigM := with_cuts (<[cut_number := c']> store) (transBlock_rBigM st);
                 transBlock_rHull := tb |})
      end
  end.

(** [for cut in cuts: ...]; an exception leaves the loop. *)
Fixpoint add_cuts (st : State) (cs : list ineq) : outcome unit * State :=
  match cs with
  | [] => (Ok (), st)
  | cut :: rest =>
      match add_cut st cut with
      | (Ok _, st') => add_cuts st' rest
      | (Raise e, st') => (Raise e, st')
      end
  end.

(** Lines 670-712: both solves.  Either the pass ends here, or the loop goes
    on with the objective value, the flag [improving] and the state. *)
Definition separate (prev_obj : xfloat) (st : State) : (flow * State) + (Q * bool * State) :=
  let '(results, vals) :=
    solve_rBigM (instance_rBigM sub) (transBlock_rBigM st) (values (world st)) in
  let st := with_world (emit Solve_rBigM (set_values vals (world st))) st in
  if negb (is_NORMAL (verify_successful_solve results)) then
    inl (Exit rBigM_solve_failed,
         with_world (emit (Warning rBigM_did_not_solve_normally) (world st)) st)
  else
    let rBigM_objVal :=
      value (values (world st)) (xstar (transBlock_rHull st)) (o_expr rBigM_obj) in
    let st := with_world (emit (Warning (rBigM_objective_is rBigM_objVal)) (world st)) st in
    let st := copy_xstar st in
    match improving_test prev_obj rBigM_objVal epsilon with
    | Raise e => inl (Raised e, st)
    | Ok improving =>
        (* opt.solve(instance_rHull, tee=stream_solver): the results are dropped *)
        let '(_, vals) :=
          solve_rHull (instance_rHull sub) (transBlock_rHull st) (values (world st)) in
        let st := with_world (emit Solve_rHull (set_values vals (world st))) st in
        (* verify_successful_solve(results): the results of the rBigM solve *)
        if negb (is_NORMAL (verify_successful_solve results)) then
          inl (Exit separation_solve_failed,
               with_world (emit (Warning separation_did_not_solve_normally) (world st)) st)
        else inr (rBigM_objVal, improving, st)
    end.

(** The value of the separation objective at the point the hull solve left. *)
Definition separation_distance (st : State) : Q :=
  value (values (world st)) (xstar (transBlock_rHull st))
        (o_expr (separation_objective (transBlock_rHull st))).

(** One pass through the body of the loop. *)
Definition round (prev_obj : xfloat) (st : State) : flow * State :=
  match separate prev_obj st with
  | inl r => r
  | inr (rBigM_objVal, improving, st) =>
      if Qltb (Qabs (separation_distance st)) epsilon then (Exit separation_converged, st)
      else
        let st := with_world (emit Create_cuts (world st)) st in
        match create_cuts config (var_info sub) hull_to_bigm_map (disaggregated_vars sub)
                (disaggregation_constraints sub) rHull_vars (instance_rHull sub)
                (rBigM_linear_constraints sub) (transBlock_rBigM st) (transBlock_rHull st)
                (cut_filtering_threshold config) (zero_tolerance config)
                (values (world st)) with
        | Raise e => (Raised e, st)
        | Ok None => (Exit no_cut_or_not_improving, st)
        | Ok (Some cuts) =>
            if negb improving then (Exit no_cut_or_not_improving, st)
            else
              match add_cuts st cuts with
              | (Raise e, st) => (Raised e, st)
              | (Ok _, st) => (Next improving (Fin rBigM_objVal), st)
              end
        end
  end.

(** [while (improving): ...], for at most [fuel] passes. *)
Fixpoint loop (fuel : nat) (improving : bool) (prev_obj : xfloat) (st : State)
    : run_result * State :=
  if negb improving then (Finished while_condition_false, st)
  else
    match fuel with
    | O => (Out_of_fuel, st)
    | S fuel =>
        match round prev_obj st with
        | (Next improving prev_obj, st) => loop fuel improving prev_obj st
        | (Exit e, st) => (Finished e, st)
        | (Raised e, st) => (Failed e, st)
        end
    end.

End Driver.

Section Transformation.
Context `{Collaborators}.

(** The state the loop starts from. *)
Definition initial_state (sub : Subproblems) (w : World) : State :=
  {| world := w; transBlock_rBigM := block_rBigM sub; transBlock_rHull := block_rHull sub |}.

Definition _generate_cuttingplanes (config : Config) (sub : Subproblems)
    (fuel : nat) (w : World) : run_result * State :=
  match List.find o_active (m_objectives (instance_rBigM sub)) with
  | None => (Failed GDP_Error, initial_state sub w)
  | Some rBigM_obj => loop config sub rBigM_obj fuel true PInf (initial_state sub w)
  end.

(** [_apply_to]: how the loop ended, the state it leaves, and the instance,
    with its integrality restored when the loop returned. *)
Definition _apply_to (config : Config) (instance : Model) (bigM : option Q)
    (fuel : nat) (w : World) : outcome (run_result * State * Model) :=
  sub ← _setup_subproblems instance bigM (tighten_relaxation config);
  let '(r, st) := _generate_cuttingplanes config sub fuel w in
  match r with
  | Finished _ => Ok (r, st, relax_integer_vars (instance_rBigM sub) true)
  | _ => Ok (r, st, instance_rBigM sub)
  end.

End Transformation.

(** ** The improvement test in the words of the specification *)



(** The sum over the triples of
    [(hull_value - target_value) * (linear_value - hull_value)], for given
    values of the hull variables, of the target slots and of the variables of
    the linear relaxation. *)
Fixpoint normal_vector_sum (var_info : list triple)
    (hull_value : var -> Q) (target_value : nat -> Q) (linear_value : var -> Q) : Q :=
  match var_info with
  | [] => 0
  | t :: rest =>
      (hull_value (x_hull t) - target_value (x_star t))
        * (linear_value (x_rbigm t) - hull_value (x_hull t))
      + normal_vector_sum rest hull_value target_value linear_value
  end.

(** The same sum with every variable of the linear relaxation at its target
    value: the expression "evaluated at the target point". *)
Fixpoint normal_vector_sum_at_target (var_info : list triple)
    (hull_value : var -> Q) (target_value : nat -> Q) : Q :=
  match var_info with
  | [] => 0
  | t :: rest =>
      (hull_value (x_hull t) - target_value (x_star t))
        * (target_value (x_star t) - hull_value (x_hull t))
      + normal_vector_sum_at_target rest hull_value target_value
  end.

(** A constraint is violated at a point, and by how much. *)
Definition violated (vals : var -> Q) (prm : nat -> Q) (c : ineq) : Prop :=
  value_ineq vals prm c = false.

Definition violation_margin (vals : var -> Q) (prm : nat -> Q) (c : ineq) : Q :=
  value vals prm (arg0 c) - value vals prm (arg1 c).

(** The indices of a cut store are the numbers below its size: the next free
    index is the size. *)
Definition dense (store : gmap nat ConstraintData) : Prop :=
  dom store = set_seq 0 (size store).

(** The squared distance between a point of the hull variables and the
    target, and between two points of the hull variables, over the triples. *)
Fixpoint squared_distance (var_info : list triple) (hull_value : var -> Q)
    (target_value : nat -> Q) : Q :=
  match var_info with
  | [] => 0
  | t :: rest =>
      (hull_value (x_hull t) - target_value (x_star t))
        * (hull_value (x_hull t) - target_value (x_star t))
      + squared_distance rest hull_value target_value
  end.

Fixpoint squared_step (var_info : list triple) (from to : var -> Q) : Q :=
  match var_info with
  | [] => 0
  | t :: rest =>
      (to (x_hull t) - from (x_hull t)) * (to (x_hull t) - from (x_hull t))
      + squared_step rest from to
  end.

(** The hull block while the back-off problem is solved. *)
Definition back_off_block (transBlock_rHull : HullBlock) (cut : ConstraintData)
    (bigm_to_hull_map : gmap var var) : HullBlock :=
  with_objectives transBlock_rHull (deactivate (separation_objective transBlock_rHull))
    (Some {| o_expr := substitute bigm_to_hull_map (body cut); o_active := true |}).

(** What the loop knows after the cuts [seen]: either no violated cut among
    them passes the threshold, or [best_cut] is one that does, with the
    largest margin among the violated ones, and [best] is that margin. *)
Definition best_so_far (vals : var -> Q) (prm : nat -> Q) (cut_threshold : Q)
    (seen : list ineq) (acc : Q * option ineq) : Prop :=
  match snd acc with
  | None =>
      fst acc == 0 /\
      forall c, In c seen -> violated vals prm c ->
                ~ cut_threshold < violation_margin vals prm c
  | Some b =>
      In b seen /\ violated vals prm b /\
      cut_threshold < violation_margin vals prm b /\
      fst acc == violation_margin vals prm b /\
      forall c, In c seen -> violated vals prm c ->
                violation_margin vals prm c <= violation_margin vals prm b
  end.

(** The cut [add_cut] leaves in the store: the candidate as the container
    holds it, after the one call of the post-processor when there is one. *)
Definition stored_cut (config : Config) (sub : Subproblems) (st : State) (cut : ineq)
    : ConstraintData :=
  let cut_number := size (cuts (transBlock_rBigM st)) in
  match post_process_cut config with
  | None => set_value cut
  | Some post_process =>
      cut_after
        (post_process (instance_rHull sub) (transBlock_rHull st) (set_value cut)
           (bigm_to_hull_map sub) (back_off_problem_tolerance config)
           (emit (Post_process cut_number)
                 (emit (Warning (adding_cut cut_number)) (world st))))
  end.

(** ** A small instance

    One variable [x] with feasible values between 0 and 1 (two disjuncts,
    [0 <= x <= 1/2] and [1/2 <= x <= 1]), to be maximised.  The linear
    relaxation lets [x] range up to 2; the hull relaxation is [0 <= xh <= 1].
    The solver is given by what it answers. *)
Module Sample.

Definition x : var := 0%nat.      (* the variable of the linear relaxation *)
Definition xh : var := 1%nat.     (* its image in the hull instance *)

Record Answers : Type := {
  second_optimum : Q;             (* the optimum of the relaxation once it has a cut *)
  separation_status : SolveStatus;
  separation_point : Q;           (* the value the separation solve leaves in xh *)
  back_off_status : SolveStatus;
  back_off_point : Q              (* the value the back-off solve leaves in xh *)
}.

Definition hull_model : Model :=
  {| m_vars := [ {| v_id := xh; v_fixed := false; v_on_disjunct := false |} ];
     m_constraints := [ (0%nat, {| lower := Some (Num 0); body := V xh; upper := Some (Num 1) |}) ];
     m_objectives := [ {| o_expr := Times (Num (-1)) (V xh); o_active := true |} ];
     m_disjunctions := [] |}.

Definition collaborators (a : Answers) : Collaborators :=
  {| SolverResults := SolveStatus;
     verify_successful_solve := fun r => r;
     solve_rBigM := fun _ tb vals =>
       (NORMAL, set_var x (if Nat.eqb (size (cuts tb)) 0 then 2 else second_optimum a) vals);
     solve_rHull := fun _ tb vals =>
       match infeasibility_objective tb with
       | None => (separation_status a, set_var xh (separation_point a) vals)
       | Some _ => (back_off_status a, set_var xh (back_off_point a) vals)
       end;
     differentiate := fun _ vs => map (fun _ => Num 1) vs;
     polynomial_degree := fun _ => Some 1%nat;
     constraint_expr := fun c =>
       match lower c, upper c with
       | Some l, Some u => RRanged l (body c) u
       | Some l, None => RIneq (Le l (body c))
       | None, Some u => RIneq (Le (body c) u)
       | None, None => RIneq (Le (body c) (body c))
       end;
     fourier_motzkin_elimination := fun _ _ _ => [];
     fme_process_constraint := fun c => [c];
     hull_create_using := fun _ _ => (hull_model, {| all_vars := [xh]; cuts := ∅ |});
     hull_get_src_var := fun v => v;
     hull_get_disaggregation_constraint := fun _ _ => 0%nat;
     bigm_apply_to := fun m _ => m;
     relax_integer_vars := fun m _ => m;
     unique_component_name := fun _ s => s |}.

Definition instance : Model :=
  {| m_vars := [ {| v_id := x; v_fixed := false; v_on_disjunct := false |} ];
     m_constraints := [ (0%nat, {| lower := Some (Num 0); body := V x; upper := Some (Num 2) |}) ];
     m_objectives := [ {| o_expr := Times (Num (-1)) (V x); o_active := true |} ];
     m_disjunctions := [] |}.

Definition config (gen : create_cuts_callback) (pp : option post_process_callback) : Config :=
  {| minimum_improvement_threshold := 0.01;
     tighten_relaxation := fun m tb => (m, (m, tb));
     create_cuts := gen;
     post_process_cut := pp;
     back_off_problem_tolerance := 0.00000001;
     cut_filtering_threshold := 0.001;
     zero_tolerance := 0.000000001 |}.

Definition triples : list triple := [ {| x_rbigm := x; x_hull := xh; x_star := 0%nat |} ].

(** What [_setup_subproblems] builds for [instance]. *)
Definition sub : Subproblems :=
  {| instance_rBigM := instance;
     block_rBigM := {| all_vars := [x]; cuts := ∅ |};
     instance_rHull :=
       {| m_vars := m_vars hull_model; m_constraints := m_constraints hull_model;
          m_objectives := [ {| o_expr := Times (Num (-1)) (V xh); o_active := false |} ];
          m_disjunctions := [] |};
     block_rHull :=
       {| h_all_vars := [xh]; h_cuts := ∅; xstar := fun _ => 0; extendedSpaceCuts := ∅;
          separation_objective :=
            {| o_expr := Plus (Num 0) (Square (Minus (V xh) (Prm 0%nat))); o_active := true |};
          infeasibility_objective := None |};
     var_info := triples;
     disaggregated_vars := [];
     disaggregation_constraints := ∅;
     rBigM_linear_constraints := map snd (m_constraints instance);
     transBlockName := "_pyomo_gdp_cuttingplane_transformation" |}.

Definition w0 : World := {| values := fun _ => 0; log := [] |}.

(** The separation solve stops early at [xh = 1/2] and says so. *)
Definition failing_separation : Answers :=
  {| second_optimum := 1 # 2;
     separation_status := NONOPTIMAL; separation_point := 1 # 2;
     back_off_status := NORMAL; back_off_point := 1 |}.

(** Every solve succeeds; the back-off solve fails in [failing_back_off]. *)
Definition all_normal : Answers :=
  {| second_optimum := 1;
     separation_status := NORMAL; separation_point := 1;
     back_off_status := NORMAL; back_off_point := 1 |}.

Definition failing_back_off : Answers :=
  {| second_optimum := 1;
     separation_status := NORMAL; separation_point := 1;
     back_off_status := NONOPTIMAL; back_off_point := 1 |}.

(** The point [x = 1], feasible for the disjunctive program. *)
Definition feasible_point : var -> Q := fun _ => 1.

End Sample.

(** Cuts that say [x <= 5], for the back-off procedures. *)
Module BackOff.

(** [x - 5 <= 0]. *)
Definition cut_upper : ConstraintData :=
  {| lower := None; body := Minus (V Sample.x) (Num 5); upper := Some (Num 0) |}.

(** [0 <= 5 - x], the form the generators produce. *)
Definition cut_lower : ConstraintData :=
  {| lower := Some (Num 0); body := Minus (Num 5) (V Sample.x); upper := None |}.

(** The back-off solve is normal and leaves the hull variable at 5.2. *)
Definition answers : Sample.Answers :=
  {| Sample.second_optimum := 1;
     Sample.separation_status := NORMAL; Sample.separation_point := 1;
     Sample.back_off_status := NORMAL; Sample.back_off_point := 5.2 |}.

Definition to_hull : gmap var var := {[ Sample.x := Sample.xh ]}.

Definition TOL : Q := 0.00000001.

End BackOff.

(** The objective of the sample's linear relaxation and the state its loop
    starts from. *)
Definition sample_objective : ObjectiveData :=
  {| o_expr := Times (Num (-1)) (V Sample.x); o_active := true |}.

Definition sample_start : State := initial_state Sample.sub Sample.w0.

(** Is every constraint of a model satisfied at a point? *)
Definition feasible (m : Model) (point : var -> Q) : bool :=
  forallb (fun c => satisfied point (fun _ => 0) (snd c)) (m_constraints m).

(** * The reactor kinetics example (pyomo.contrib.doe.reactor_kinetics)

    The part of [create_model] that computes: which control point governs the
    temperature at a time point.  [controls] is the dictionary of control
    time points and temperatures, in the order of its keys; the keys of a
    dictionary are distinct. *)
From Stdlib Require Import Sorted.

Module Kinetics.

(** [l[j]] of Python, with its negative indices. *)
Definition py_index {A : Type} (l : list A) (j : Z) : outcome A :=
  let n := Z.of_nat (length l) in
  let k := if (j <? 0)%Z then (n + j)%Z else j in
  if (k <? 0)%Z then Raise IndexError
  else match l !! Z.to_nat k with
       | Some a => Ok a
       | None => Raise IndexError
       end.

(** [list(controls.keys())]. *)
Definition t_control (controls : list (Q * Q)) : list Q := map fst controls.

(** [controls[t]]. *)
Definition getitem (controls : list (Q * Q)) (t : Q) : outcome Q :=
  match List.find (fun kv => Qeq_bool (fst kv) t) controls with
  | Some kv => Ok (snd kv)
  | None => Raise KeyError
  end.

(** [t in m.t_con]. *)
Definition is_control_point (controls : list (Q * Q)) (t : Q) : bool :=
  existsb (fun t_con => Qeq_bool t_con t) (t_control controls).

(** Lines 85-88 and 133-136: [j = -1], and one more for every control point
    before [t]. *)
Definition count_before (controls : list (Q * Q)) (t : Q) : Z :=
  fold_left (fun j t_con => if Qltb t_con t then (j + 1)%Z else j)
            (t_control controls) (-1)%Z.

(** [neighbour_t = t_control[j]], lines 89 and 137. *)
Definition neighbour_t (controls : list (Q * Q)) (t : Q) : outcome Q :=
  py_index (t_control controls) (count_before controls t).

(** The initial value of [T] at [t]. *)
Definition T_initial (controls : list (Q * Q)) (t : Q) : outcome Q :=
  if is_control_point controls t then getitem controls t
  else n ← neighbour_t controls t; getitem controls n.

(** The rule of [T_rule] at [t]: [Constraint.Skip] (None) at a control point,
    and otherwise the equation [T[t] == T[neighbour_t]], given by the two
    time points. *)
Definition T_control (controls : list (Q * Q)) (t : Q) : outcome (option (Q * Q)) :=
  if is_control_point controls t then Ok None
  else n ← neighbour_t controls t; Ok (Some (t, n)).

(** The number of keys before [t]. *)
Fixpoint before (keys : list Q) (t : Q) : nat :=
  match keys with
  | [] => 0%nat
  | k :: rest => ((if Qltb k t then 1 else 0) + before rest t)%nat
  end.

(** The default controls of [create_model]. *)
Definition default_controls : list (Q * Q) :=
  [(0, 300); (0.125, 300); (0.25, 300); (0.375, 300); (0.5, 300);
   (0.625, 300); (0.75, 300); (0.875, 300); (1, 300)].

End Kinetics.

(** ** Notions for the further properties *)

(** [normal_vec . p] over the variables of [point]. *)
Fixpoint dot (normal_vec : list Q) (point : list var) (p : var -> Q) : Q :=
  match normal_vec, point with
  | n :: ns, v :: vs => n * p v + dot ns vs p
  | _, _ => 0
  end.

(** Every variable of an expression satisfies [P]. *)
Fixpoint over (P : var -> Prop) (e : expr) : Prop :=
  match e with
  | Num _ | Prm _ => True
  | V v => P v
  | Plus a b | Minus a b | Times a b => over P a /\ over P b
  | Square a => over P a
  end.

(** The values a substituted expression reads: those of the images. *)
Definition renamed (m : gmap var var) (vals : var -> Q) : var -> Q :=
  fun v => match m !! v with Some v' => vals v' | None => vals v end.

(** The lower and the upper bound of a constraint are reached or passed. *)
Definition at_lower (vals : var -> Q) (prm : nat -> Q) (c : ConstraintData) : Prop :=
  exists l, lower c = Some l /\ value vals prm (body c) <= value vals prm l.

Definition at_upper (vals : var -> Q) (prm : nat -> Q) (c : ConstraintData) : Prop :=
  exists u, upper c = Some u /\ value vals prm u <= value vals prm (body c).

(** The sample with a solver that fails on the linear relaxation. *)
Definition failing_rBigM : Collaborators :=
  let base := Sample.collaborators Sample.all_normal in
  {| SolverResults := SolveStatus;
     verify_successful_solve := fun r => r;
     solve_rBigM := fun _ _ vals => (INFEASIBLE, vals);
     solve_rHull := @solve_rHull base;
     differentiate := @differentiate base;
     polynomial_degree := @polynomial_degree base;
     constraint_expr := @constraint_expr base;
     fourier_motzkin_elimination := @fourier_motzkin_elimination base;
     fme_process_constraint := @fme_process_constraint base;
     hull_create_using := @hull_create_using base;
     hull_get_src_var := @hull_get_src_var base;
     hull_get_disaggregation_constraint := @hull_get_disaggregation_constraint base;
     bigm_apply_to := @bigm_apply_to base;
     relax_integer_vars := @relax_integer_vars base;
     unique_component_name := @unique_component_name base |}.

(** One triple of the copy loop, lines 685-687. *)
Definition copy_step (st : State) (t : triple) : State :=
  let q := values (world st) (x_rbigm t) in
  let tb := with_xstar (fun i => if Nat.eqb i (x_star t) then q
                                 else xstar (transBlock_rHull st) i)
                       (transBlock_rHull st) in
  {| world := set_values (set_var (x_hull t) q (values (world st))) (world st);
     transBlock_rBigM := transBlock_rBigM st;
     transBlock_rHull := tb |}.

(** The sample instance with its objective deactivated. *)
Definition no_objective : Model :=
  {| m_vars := m_vars Sample.instance;
     m_constraints := m_constraints Sample.instance;
     m_objectives := map deactivate (m_objectives Sample.instance);
     m_disjunctions := m_disjunctions Sample.instance |}.

(** The sum of the [i]-th components of the vectors. *)
Fixpoint column (i : nat) (normal_vectors : list (list Q)) : Q :=
  match normal_vectors with
  | [] => 0
  | v :: rest => nth i v 0 + column i rest
  end.
(** * Properties *)

Lemma Qltb_lt a b : Qltb a b = true <-> a < b.
Proof.
  unfold Qltb. rewrite negb_true_iff, <- not_true_iff_false, Qle_bool_iff.
  split; [apply Qnot_le_lt | apply Qlt_not_le].
Qed.

Lemma Qltb_ge a b : Qltb a b = false <-> b <= a.
Proof.
  unfold Qltb. rewrite negb_false_iff. apply Qle_bool_iff.
Qed.


(** The test returns a flag unless the relative branch divides by a previous
    objective that is zero. *)
Lemma improving_test_raises prev cur eps e :
  improving_test prev cur eps = Raise e <->
  e = ZeroDivisionError /\ exists p, prev = Fin p /\ p == 0 /\ 1 <= Qabs cur.
Proof.
  unfold improving_test. destruct prev as [p|]; simpl.
  - destruct (Qltb (Qabs cur) 1) eqn:Hlt.
    + apply Qltb_lt in Hlt. split; [discriminate|].
      intros (_ & p' & [= <-] & _ & Hge). exfalso. apply (Qlt_not_le _ _ Hlt). exact Hge.
    + apply Qltb_ge in Hlt. destruct (Qeq_bool p 0) eqn:Hz.
      * apply Qeq_bool_iff in Hz. split.
        -- intros [= <-]. split; [reflexivity|]. exists p. repeat split; assumption.
        -- intros [-> _]. reflexivity.
      * split; [discriminate|].
        intros (_ & p' & [= <-] & Hp & _). apply Qeq_bool_iff in Hp. congruence.
  - split; [discriminate|]. intros (_ & p' & Hp & _). discriminate.
Qed.

(** ** One pass through the loop *)

Section RoundFacts.
Context `{Collaborators}.
Variable config : Config.
Variable sub : Subproblems.
Variable rBigM_obj : ObjectiveData.

Lemma copy_xstar_frame (st : State) :
  transBlock_rBigM (copy_xstar sub st) = transBlock_rBigM st /\
  log (world (copy_xstar sub st)) = log (world st).
Proof.
  unfold copy_xstar. revert st.
  induction (var_info sub) as [|t ts IH]; intros st; simpl; [split; reflexivity|].
  destruct (IH (Build_State
     (set_values (set_var (x_hull t) (values (world st) (x_rbigm t)) (values (world st)))
                 (world st))
     (transBlock_rBigM st)
     (with_xstar (fun i => if Nat.eqb i (x_star t) then values (world st) (x_rbigm t)
                           else xstar (transBlock_rHull st) i) (transBlock_rHull st))))
    as [IH1 IH2].
  split; [rewrite IH1 | rewrite IH2]; reflexivity.
Qed.

(** Where [separate] hands over to the second half of the pass: the rBigM
    solve was normal, the flag is the one [improving_test] computes for the
    objective value of this pass, the cut store is as it was, and both solves
    and nothing else were logged. *)
Lemma separate_inr prev st objval improving st' :
  separate config sub rBigM_obj prev st = inr (objval, improving, st') ->
  let solved := solve_rBigM (instance_rBigM sub) (transBlock_rBigM st) (values (world st)) in
  verify_successful_solve (fst solved) = NORMAL /\
  objval = value (snd solved) (xstar (transBlock_rHull st)) (o_expr rBigM_obj) /\
  improving_test prev objval (epsilon config) = Ok improving /\
  transBlock_rBigM st' = transBlock_rBigM st /\
  log (world st') =
    log (world st) ++ [Solve_rBigM; Warning (rBigM_objective_is objval); Solve_rHull].
Proof.
  unfold separate.
  destruct (solve_rBigM _ _ _) as [results vals] eqn:Hs. simpl.
  destruct (verify_successful_solve results) eqn:Hv; simpl; try discriminate.
  match goal with |- context [copy_xstar sub ?s] =>
    destruct (copy_xstar_frame s) as [Hb Hl]; set (st1 := copy_xstar sub s) in * end.
  destruct (improving_test _ _ _) as [b|e] eqn:Hi; [|discriminate].
  destruct (solve_rHull _ _ _) as [results' vals'] eqn:Hh.
  intros [= <- <- <-]. simpl.
  repeat split; try assumption.
  rewrite Hl. simpl. rewrite <- !app_assoc. reflexivity.
Qed.

(** The return of line 706 is never taken: the status tested there is the
    one of the rBigM solve, which was normal three lines of control earlier. *)
Lemma separation_failure_exit_unreachable prev st :
  fst (round config sub rBigM_obj prev st) <> Exit separation_solve_failed.
Proof.
  unfold round, separate.
  destruct (solve_rBigM _ _ _) as [results vals]. simpl.
  destruct (verify_successful_solve results) eqn:Hv; simpl; try discriminate.
  destruct (improving_test _ _ _) as [b|e]; simpl; [|discriminate].
  destruct (solve_rHull _ _ _) as [results' vals'].
  destruct (Qltb _ _); simpl; [discriminate|].
  destruct (create_cuts _ _ _ _ _ _ _ _ _ _ _ _ _) as [[cs|]|e]; simpl; try discriminate.
  destruct (negb b); simpl; [discriminate|].
  destruct (add_cuts _ _ _ _) as [[u|e] st2]; simpl; discriminate.
Qed.

End RoundFacts.

(** ** The improvement test and the convergence test *)


(** The first pass has no previous objective: [prev_obj = float("inf")]. *)
Lemma first_pass_previous_objective `{Collaborators} config sub fuel w rBigM_obj :
  List.find o_active (m_objectives (instance_rBigM sub)) = Some rBigM_obj ->
  _generate_cuttingplanes config sub fuel w =
  loop config sub rBigM_obj fuel true PInf (initial_state sub w).
Proof. unfold _generate_cuttingplanes. intros ->. reflexivity. Qed.

(** C5.  When the value of the separation objective a pass finds is below
    the threshold, the pass ends the loop at line 720 (CONVERGED): the cut
    generator is not called, the cut store is the one the pass started with,
    and the run returns with that state. *)
Theorem convergence_on_small_distance `{Collaborators} (config : Config)
    (sub : Subproblems) (rBigM_obj : ObjectiveData) (prev : xfloat) (st : State)
    (objval : Q) (improving : bool) (st' : State) :
  separate config sub rBigM_obj prev st = inr (objval, improving, st') ->
  Qabs (separation_distance st') < minimum_improvement_threshold config ->
  round config sub rBigM_obj prev st = (Exit separation_converged, st') /\
  state_of_exit separation_converged = CONVERGED /\
  cuts (transBlock_rBigM st') = cuts (transBlock_rBigM st) /\
  log (world st') =
    log (world st) ++ [Solve_rBigM; Warning (rBigM_objective_is objval); Solve_rHull] /\
  (forall fuel, loop config sub rBigM_obj (S fuel) true prev st =
                (Finished separation_converged, st')).
Proof.
  intros Hsep Hlt.
  destruct (separate_inr config sub rBigM_obj prev st objval improving st' Hsep)
    as (_ & _ & _ & Hblock & Hlog).
  assert (Hround : round config sub rBigM_obj prev st = (Exit separation_converged, st')).
  { unfold round. rewrite Hsep. apply Qltb_lt in Hlt. unfold epsilon. rewrite Hlt. reflexivity. }
  split; [exact Hround|]. split; [reflexivity|].
  split; [rewrite Hblock; reflexivity|]. split; [exact Hlog|].
  intros fuel. simpl. rewrite Hround. reflexivity.
Qed.

(** ** The normal-vector generator *)

Lemma normal_vector_cutexpr_acc var_info vals prm point prm' acc :
  value point prm'
    (fold_left (fun cutexpr t =>
                  Plus cutexpr (Times (Num (vals (x_hull t) - prm (x_star t)))
                                      (Minus (V (x_rbigm t)) (Num (vals (x_hull t))))))
               var_info acc)
  == value point prm' acc + normal_vector_sum var_info vals prm point.
Proof.
  revert acc. induction var_info as [|t ts IH]; intros acc; simpl.
  - ring.
  - rewrite IH. simpl. ring.
Qed.

(** The expression the generator builds has, at every point, the value of
    the sum of the specification. *)
Lemma normal_vector_cutexpr_value var_info vals prm point prm' :
  value point prm' (normal_vector_cutexpr var_info vals prm)
  == normal_vector_sum var_info vals prm point.
Proof.
  unfold normal_vector_cutexpr. rewrite normal_vector_cutexpr_acc. simpl. ring.
Qed.

Lemma normal_vector_sum_target var_info vals prm :
  Forall (fun t => vals (x_rbigm t) == prm (x_star t)) var_info ->
  normal_vector_sum var_info vals prm vals == normal_vector_sum_at_target var_info vals prm.
Proof.
  induction 1 as [|t ts Ht _ IH]; simpl; [reflexivity|].
  rewrite IH, Ht. reflexivity.
Qed.



(** ** The back-off procedures *)

Section BackOffFacts.
Context `{Collaborators}.


(** When the back-off solve is not normal the procedure logs its warning and
    raises NameError: the cut is as it was, the separation objective stays
    deactivated and the back-off objective stays on the block. *)
Lemma calculated_back_off_failure instance_rHull transBlock_rHull cut bigm_to_hull_map TOL w :
  let tb := back_off_block transBlock_rHull cut bigm_to_hull_map in
  let solved := solve_rHull instance_rHull tb (values w) in
  verify_successful_solve (fst solved) <> NORMAL ->
  back_off_constraint_with_calculated_cut_violation
    instance_rHull transBlock_rHull cut bigm_to_hull_map TOL w
  = (Raise NameError,
     (tb, cut,
      emit (Warning back_off_did_not_solve_normally)
           (emit Solve_rHull (set_values (snd solved) w)))).
Proof.
  intros tb solved Hfail.
  unfold back_off_constraint_with_calculated_cut_violation.
  fold (back_off_block transBlock_rHull cut bigm_to_hull_map). fold tb.
  unfold solved in Hfail. destruct (solve_rHull instance_rHull tb (values w)) as [results vals].
  simpl in *. destruct (verify_successful_solve results); [contradiction | reflexivity..].
Qed.

End BackOffFacts.

(** C3, as the code has it.  When the back-off problem, whose objective is
    the body of the cut in hull variables, solves normally with objective
    value [V]: the body of the cut grows by [|V - TOL| = TOL - V] when
    [V - TOL <= 0] and the cut stays as it is when [V - TOL > 0]; bounds are
    untouched and the separation objective is active again, the back-off
    objective gone.  The fixed-tolerance procedure adds [TOL] to the body. *)
Theorem calculated_back_off_rule `{Collaborators} (instance_rHull : Model)
    (transBlock_rHull : HullBlock) (cut : ConstraintData)
    (bigm_to_hull_map : gmap var var) (TOL : Q) (w : World) :
  let tb := back_off_block transBlock_rHull cut bigm_to_hull_map in
  let solved := solve_rHull instance_rHull tb (values w) in
  let V := value (snd solved) (xstar transBlock_rHull)
                 (substitute bigm_to_hull_map (body cut)) in
  verify_successful_solve (fst solved) = NORMAL ->
  (exists cut',
     back_off_constraint_with_calculated_cut_violation
       instance_rHull transBlock_rHull cut bigm_to_hull_map TOL w
     = (Ok (),
        (with_objectives transBlock_rHull (activate (separation_objective transBlock_rHull)) None,
         cut', emit Solve_rHull (set_values (snd solved) w))) /\
     (V - TOL <= 0 -> cut' = add_to_body cut (Qabs (V - TOL)) /\ Qabs (V - TOL) == TOL - V) /\
     (0 < V - TOL -> cut' = cut)) /\
  back_off_constraint_by_fixed_tolerance
    instance_rHull transBlock_rHull cut bigm_to_hull_map TOL w
  = (Ok (), (transBlock_rHull, add_to_body cut TOL, w)).
Proof.
  intros tb solved V Hnormal. split; [|reflexivity].
  unfold back_off_constraint_with_calculated_cut_violation.
  fold (back_off_block transBlock_rHull cut bigm_to_hull_map). fold tb.
  unfold V, solved in *. destruct (solve_rHull instance_rHull tb (values w)) as [results vals].
  simpl in *. rewrite Hnormal. simpl.
  set (val := value vals (xstar transBlock_rHull) (substitute bigm_to_hull_map (body cut)) - TOL).
  eexists. split; [reflexivity|].
  destruct (Qle_bool val 0) eqn:Hle.
  - apply Qle_bool_iff in Hle. split.
    + intros _. split; [reflexivity|]. transitivity (- val); [exact (Qabs_neg val Hle) | unfold val; ring].
    + intros Hpos. exfalso. apply (Qlt_not_le _ _ Hpos), Hle.
  - split; [|reflexivity].
    intros Hle'. apply Qle_bool_iff in Hle'. congruence.
Qed.

(** The cut [0 <= 5 - x] when the back-off solve finds the body at -0.2:
    the body grows by 0.2 + 1e-8. *)
Lemma calculated_back_off_rule_witness :
  exists cut',
    cut_after
      (@back_off_constraint_with_calculated_cut_violation
         (Sample.collaborators BackOff.answers) Sample.hull_model
         (block_rHull Sample.sub) BackOff.cut_lower BackOff.to_hull BackOff.TOL Sample.w0)
    = cut' /\
    cut' = add_to_body BackOff.cut_lower (Qabs (-0.2 - BackOff.TOL)).
Proof.
  destruct (@calculated_back_off_rule (Sample.collaborators BackOff.answers)
              Sample.hull_model (block_rHull Sample.sub) BackOff.cut_lower
              BackOff.to_hull BackOff.TOL Sample.w0 eq_refl)
    as [(cut' & Hrun & Hpad & _) _].
  exists cut'. split; [rewrite Hrun; reflexivity|].
  destruct Hpad as [-> _]; [vm_compute; discriminate|].
  vm_compute. reflexivity.
Defined.

(** C3 as stated fails.  With the body of [x - 5 <= 0] at its largest value
    [M = 0.2] on the hull relaxation and [TOL = 1e-8], [M - TOL] is positive
    and the cut is left as it is, where the claim pads it by [M - TOL]; and
    read with [M] the largest violation of [0 <= 5 - x], the pad is
    [M + TOL], not [M - TOL]. *)
Lemma calculated_back_off_counterexample :
  let run cut :=
    @back_off_constraint_with_calculated_cut_violation
      (Sample.collaborators BackOff.answers) Sample.hull_model
      (block_rHull Sample.sub) cut BackOff.to_hull BackOff.TOL Sample.w0 in
  let M := 0.2 in
  (fst (run BackOff.cut_upper) = Ok () /\
   value (values (snd (snd (run BackOff.cut_upper)))) (fun _ => 0)
         (substitute BackOff.to_hull (body BackOff.cut_upper)) == M /\
   0 < M - BackOff.TOL /\
   cut_after (run BackOff.cut_upper) = BackOff.cut_upper /\
   cut_after (run BackOff.cut_upper) <> add_to_body BackOff.cut_upper (M - BackOff.TOL)) /\
  (value (values (snd (snd (run BackOff.cut_lower)))) (fun _ => 0)
         (substitute BackOff.to_hull (body BackOff.cut_lower)) == - M /\
   exists pad,
     body (cut_after (run BackOff.cut_lower))
     = Plus (body BackOff.cut_lower) (Num pad) /\
     pad == M + BackOff.TOL /\ ~ pad == M - BackOff.TOL).
Proof.
  intros run M. split.
  - vm_compute. repeat split; try reflexivity; discriminate.
  - split; [vm_compute; reflexivity|].
    eexists. split; [vm_compute; reflexivity|].
    split; vm_compute; [reflexivity | discriminate].
Qed.

(** C4, at an input where the back-off solve is not normal: the procedure
    raises NameError after its warning, the separation objective is left
    deactivated with the back-off objective still on the block, and the whole
    run ends with that exception instead of going on to the next pass. *)
Theorem back_off_failure_raises :
  let H := Sample.collaborators Sample.failing_back_off in
  let back_off := @back_off_constraint_with_calculated_cut_violation H in
  let cut := set_value (Le (Num 0) (Minus (Num 1) (V Sample.x))) in
  let r := back_off (instance_rHull Sample.sub) (block_rHull Sample.sub) cut
                    (bigm_to_hull_map Sample.sub) BackOff.TOL Sample.w0 in
  fst (solve_rHull (instance_rHull Sample.sub)
         (back_off_block (block_rHull Sample.sub) cut (bigm_to_hull_map Sample.sub))
         (values Sample.w0)) = NONOPTIMAL /\
  fst r = Raise NameError /\
  log (snd (snd r)) = [Solve_rHull; Warning back_off_did_not_solve_normally] /\
  cut_after r = cut /\
  o_active (separation_objective (block_after r)) = false /\
  infeasibility_objective (block_after r) <> None /\
  fst (_generate_cuttingplanes
         (Sample.config create_cuts_normal_vector (Some back_off)) Sample.sub 5 Sample.w0)
  = Failed NameError.
Proof.
  vm_compute. repeat split; try reflexivity; discriminate.
Qed.

(** ** The subproblem builder *)

(** C10.  The model the tighten_relaxation callback returns plays no part in
    what [_setup_subproblems] builds: two callbacks that leave the instance
    the same way give the same subproblems, the hull relaxation among them,
    whatever they return; a callback that leaves the instance alone gives
    what [do_not_tighten] gives. *)
Theorem hull_ignores_tightened_model `{Collaborators} (instance : Model) (bigM : option Q)
    (effect : Model -> TransBlock -> Model * TransBlock)
    (returned returned' : Model -> TransBlock -> Model) :
  _setup_subproblems instance bigM (fun m tb => (returned m tb, effect m tb))
  = _setup_subproblems instance bigM (fun m tb => (returned' m tb, effect m tb)) /\
  _setup_subproblems instance bigM (fun m tb => (returned m tb, (m, tb)))
  = _setup_subproblems instance bigM (fun m tb => (do_not_tighten m, (m, tb))).
Proof. split; reflexivity. Qed.

(** The builder on the sample: the subproblems of [Sample.sub], with an empty
    cut store. *)
Example setup_sample :
  @_setup_subproblems (Sample.collaborators Sample.all_normal) Sample.instance None
    (fun m tb => (do_not_tighten m, (m, tb)))
  = Ok Sample.sub.
Proof. reflexivity. Qed.

(** The hull instance of the subproblems is the hull reformulation of the
    instance as the callback leaves it, with integrality relaxed and its
    objectives deactivated; the model the callback returns does not occur. *)
Lemma setup_hull_from_instance `{Collaborators} instance bigM callback sub :
  _setup_subproblems instance bigM callback = Ok sub ->
  let block :=
    {| all_vars := map v_id (filter (fun v => v_fixed v = false) (m_vars instance));
       cuts := ∅ |} in
  let left := snd (callback instance block) in
  let hull := relax_integer_vars (fst (hull_create_using (fst left) (snd left))) false in
  m_vars (instance_rHull sub) = m_vars hull /\
  m_constraints (instance_rHull sub) = m_constraints hull /\
  m_objectives (instance_rHull sub) = map deactivate (m_objectives hull) /\
  m_disjunctions (instance_rHull sub) = m_disjunctions hull.
Proof.
  unfold _setup_subproblems. simpl.
  destruct (callback _ _) as [tighter [inst tb']]. simpl.
  destruct (hull_create_using inst tb') as [hull clone]. simpl.
  destruct (_get_disaggregated_vars _) as [dv dc].
  destruct (make_var_info _ _ _) as [vi|e]; simpl; [|discriminate].
  intros [= <-]. simpl. repeat split; reflexivity.
Qed.

(** ** The Fourier-Motzkin generator: the choice among the projected cuts *)

Section Selection.
Variable vals : var -> Q.
Variable prm : nat -> Q.
Variable cut_threshold : Q.

Lemma violated_margin_positive c :
  violated vals prm c -> 0 < violation_margin vals prm c.
Proof.
  unfold violated, value_ineq, violation_margin. intros Hv.
  assert (Hlt : value vals prm (arg1 c) < value vals prm (arg0 c)).
  { apply Qnot_le_lt. intros Hle. apply Qle_bool_iff in Hle. congruence. }
  lra.
Qed.


Lemma keep_best_step seen acc cut :
  best_so_far vals prm cut_threshold seen acc ->
  best_so_far vals prm cut_threshold (cut :: seen) (keep_best vals prm cut_threshold acc cut).
Proof.
  destruct acc as [best [b|]]; unfold best_so_far, keep_best; simpl.
  - intros (Hin & Hviol & Hthr & Hbest & Hmax).
    destruct (value_ineq vals prm cut) eqn:Hsat; simpl.
    + split; [right; exact Hin|]. split; [exact Hviol|]. split; [exact Hthr|].
      split; [exact Hbest|].
      intros c [<- | Hc] Hv; [unfold violated in Hv; congruence | auto].
    + fold (violation_margin vals prm cut).
      destruct (Qltb cut_threshold (violation_margin vals prm cut)) eqn:H1;
        destruct (Qltb best (violation_margin vals prm cut)) eqn:H2; simpl;
        try apply Qltb_lt in H1; try apply Qltb_lt in H2;
        try apply Qltb_ge in H1; try apply Qltb_ge in H2.
      * split; [left; reflexivity|]. split; [exact Hsat|]. split; [exact H1|].
        split; [reflexivity|].
        intros c [<- | Hc] Hv; [lra|]. specialize (Hmax c Hc Hv). lra.
      * split; [right; exact Hin|]. split; [exact Hviol|]. split; [exact Hthr|].
        split; [exact Hbest|].
        intros c [<- | Hc] Hv; [lra | auto].
      * split; [right; exact Hin|]. split; [exact Hviol|]. split; [exact Hthr|].
        split; [exact Hbest|].
        intros c [<- | Hc] Hv; [lra | auto].
      * split; [right; exact Hin|]. split; [exact Hviol|]. split; [exact Hthr|].
        split; [exact Hbest|].
        intros c [<- | Hc] Hv; [lra | auto].
  - intros (Hbest & Hnone).
    destruct (value_ineq vals prm cut) eqn:Hsat; simpl.
    + split; [exact Hbest|].
      intros c [<- | Hc] Hv; [unfold violated in Hv; congruence | auto].
    + fold (violation_margin vals prm cut).
      assert (Hpos : 0 < violation_margin vals prm cut)
        by (apply violated_margin_positive; exact Hsat).
      destruct (Qltb cut_threshold (violation_margin vals prm cut)) eqn:H1;
        destruct (Qltb best (violation_margin vals prm cut)) eqn:H2; simpl;
        try apply Qltb_lt in H1; try apply Qltb_lt in H2;
        try apply Qltb_ge in H1; try apply Qltb_ge in H2.
      * split; [left; reflexivity|]. split; [exact Hsat|]. split; [exact H1|].
        split; [reflexivity|].
        intros c [<- | Hc] Hv; [lra|]. specialize (Hnone c Hc Hv). lra.
      * lra.
      * split; [exact Hbest|]. intros c [<- | Hc] Hv; [lra | auto].
      * lra.
Qed.

Lemma keep_best_fold l seen acc :
  best_so_far vals prm cut_threshold seen acc ->
  best_so_far vals prm cut_threshold (rev l ++ seen) (fold_left (keep_best vals prm cut_threshold) l acc).
Proof.
  revert seen acc. induction l as [|c l IH]; intros seen acc Hacc; simpl; [exact Hacc|].
  rewrite <- app_assoc. simpl. apply IH, keep_best_step, Hacc.
Qed.

(** The choice of lines 208-231: None when no violated cut passes the
    threshold, and otherwise one cut, violated, past the threshold, with the
    largest margin among the violated cuts. *)
Lemma select_cut_spec (cuts : list ineq) :
  match select_cut vals prm cut_threshold cuts with
  | None =>
      forall c, In c cuts -> violated vals prm c ->
                ~ cut_threshold < violation_margin vals prm c
  | Some l =>
      exists b, l = [b] /\ In b cuts /\ violated vals prm b /\
                cut_threshold < violation_margin vals prm b /\
                forall c, In c cuts -> violated vals prm c ->
                          violation_margin vals prm c <= violation_margin vals prm b
  end.
Proof.
  unfold select_cut.
  assert (H0 : best_so_far vals prm cut_threshold [] (0, None)).
  { unfold best_so_far. simpl. split; [reflexivity | intros c []]. }
  pose proof (keep_best_fold (rev cuts) [] (0, None) H0) as Hinv.
  rewrite rev_involutive, app_nil_r in Hinv.
  unfold best_so_far in Hinv.
  destruct (snd (fold_left (keep_best vals prm cut_threshold) (rev cuts) (0, None))) as [b|].
  - destruct Hinv as (Hin & Hviol & Hthr & _ & Hmax). exists b. repeat split; auto.
  - destruct Hinv as [_ Hnone]. exact Hnone.
Qed.

End Selection.


(** Three projected constraints at [x = 2] with threshold 0.001: [3 <= x]
    (margin 1), [1 <= x] (satisfied) and [5 <= x] (margin 3, chosen). *)
Example select_cut_sample :
  select_cut (fun _ => 2) (fun _ => 0) 0.001
    [Le (Num 3) (V 0%nat); Le (Num 1) (V 0%nat); Le (Num 5) (V 0%nat)]
  = Some [Le (Num 5) (V 0%nat)] /\
  select_cut (fun _ => 2) (fun _ => 0) 0.001 [Le (Num 2.0005) (V 0%nat)] = None.
Proof. split; reflexivity. Qed.

(** ** The cut store *)

Lemma dense_empty : dense ∅.
Proof. reflexivity. Qed.

Lemma dense_fresh (store : gmap nat ConstraintData) :
  dense store -> store !! size store = None.
Proof.
  unfold dense. intros Hd. apply not_elem_of_dom. rewrite Hd.
  rewrite elem_of_set_seq. lia.
Qed.

Lemma dense_insert (store : gmap nat ConstraintData) c :
  dense store -> dense (<[size store := c]> store).
Proof.
  intros Hd. pose proof (dense_fresh store Hd) as Hfresh. unfold dense in *.
  rewrite dom_insert_L, (map_size_insert_None _ _ _ Hfresh), Hd.
  rewrite set_seq_S_end_union_L. reflexivity.
Qed.

Section StoreFacts.
Context `{Collaborators}.
Variable config : Config.
Variable sub : Subproblems.
Variable rBigM_obj : ObjectiveData.

Local Abbreviation store st := (cuts (transBlock_rBigM st)).


Lemma add_cut_store st cut :
  store (snd (add_cut config sub st cut))
  = <[size (store st) := stored_cut config sub st cut]> (store st).
Proof.
  unfold add_cut, stored_cut. destruct (post_process_cut config) as [f|]; [|reflexivity].
  rewrite lookup_insert_eq. simpl.
  destruct (f _ _ _ _ _ _) as [r [[tb c'] w]]. simpl.
  apply insert_insert_eq.
Qed.

Lemma add_cut_grows st cut :
  dense (store st) ->
  store st ⊆ store (snd (add_cut config sub st cut)) /\
  dense (store (snd (add_cut config sub st cut))).
Proof.
  intros Hd. rewrite add_cut_store. split.
  - apply insert_subseteq, dense_fresh, Hd.
  - apply dense_insert, Hd.
Qed.





End StoreFacts.

(** The two procedures of the module change the cut by an additive pad of its
    body, or not at all. *)
Lemma post_processors_pad_only `{Collaborators} instance_rHull transBlock_rHull cut
    bigm_to_hull_map TOL w :
  (let cut' := cut_after (back_off_constraint_with_calculated_cut_violation
                            instance_rHull transBlock_rHull cut bigm_to_hull_map TOL w) in
   cut' = cut \/ exists pad, cut' = add_to_body cut pad) /\
  cut_after (back_off_constraint_by_fixed_tolerance
               instance_rHull transBlock_rHull cut bigm_to_hull_map TOL w)
  = add_to_body cut TOL.
Proof.
  split; [|reflexivity].
  unfold back_off_constraint_with_calculated_cut_violation.
  destruct (solve_rHull _ _ _) as [results vals].
  destruct (negb (is_NORMAL (verify_successful_solve results))); simpl; [left; reflexivity|].
  destruct (Qle_bool _ 0); [right; eexists; reflexivity | left; reflexivity].
Qed.


(** The store the builder creates is empty, hence dense. *)
Lemma setup_store_empty `{Collaborators} instance bigM callback sub :
  (forall m tb, cuts (snd (snd (callback m tb))) = cuts tb) ->
  _setup_subproblems instance bigM callback = Ok sub ->
  cuts (block_rBigM sub) = ∅.
Proof.
  intros Hcb. unfold _setup_subproblems. simpl.
  match goal with |- context [callback ?m ?tb] =>
    specialize (Hcb m tb); destruct (callback m tb) as [tighter [inst tb']] end.
  simpl in Hcb.
  destruct (hull_create_using inst tb') as [hull clone].
  destruct (_get_disaggregated_vars _) as [dv dc].
  destruct (make_var_info _ _ _) as [vi|e]; simpl; [|discriminate].
  intros [= <-]. simpl. exact Hcb.
Qed.

(** ** A separation solve that fails *)

(** C2, at an input where the solve of the separation problem is not normal
    (it stops at [xh = 1/2] for the candidate [x* = 2] and reports
    NONOPTIMAL): the pass does not end the loop.  The generator is called, a
    cut is added at index 0, and the loop goes on to its next pass. *)
Theorem separation_failure_not_detected :
  let H := Sample.collaborators Sample.failing_separation in
  let cfg := Sample.config create_cuts_normal_vector None in
  let r := round cfg Sample.sub sample_objective PInf sample_start in
  (forall m tb vals, infeasibility_objective tb = None ->
                     verify_successful_solve (fst (solve_rHull m tb vals)) = NONOPTIMAL) /\
  fst r = Next true (Fin (-2)) /\
  log (world (snd r))
  = [Solve_rBigM; Warning (rBigM_objective_is (-2)); Solve_rHull; Create_cuts;
     Warning (adding_cut 0)] /\
  size (cuts (transBlock_rBigM (snd r))) = 1%nat /\
  cuts (transBlock_rBigM sample_start) = ∅.
Proof.
  split.
  - intros m tb vals Hnone. simpl. rewrite Hnone. reflexivity.
  - vm_compute. repeat split; reflexivity.
Qed.

(** C1, at the same input, with no post-processing and with the
    fixed-tolerance back-off: the run ends normally, and the cut it has added
    from the point the failed separation solve left, [x <= 1/2], is violated
    at [x = 1], a point that satisfies the constraints of both relaxations. *)
Theorem unsound_cut_after_failed_separation :
  let H := Sample.collaborators Sample.failing_separation in
  let run pp := _generate_cuttingplanes
                  (Sample.config create_cuts_normal_vector pp) Sample.sub 5 Sample.w0 in
  let cut_0 pp := cuts (transBlock_rBigM (snd (run pp))) !! 0%nat in
  let violated_at_feasible_point c :=
    satisfied Sample.feasible_point (fun _ => 0) c = false in
  feasible Sample.instance Sample.feasible_point = true /\
  feasible Sample.hull_model Sample.feasible_point = true /\
  fst (run None) = Finished separation_converged /\
  (exists c, cut_0 None = Some c /\ violated_at_feasible_point c) /\
  fst (run (Some back_off_constraint_by_fixed_tolerance)) = Finished separation_converged /\
  (exists c, cut_0 (Some back_off_constraint_by_fixed_tolerance) = Some c /\
             violated_at_feasible_point c).
Proof.
  intros H run cut_0 violated_at_feasible_point.
  split; [reflexivity|]. split; [reflexivity|].
  split; [vm_compute; reflexivity|].
  split; [eexists; split; vm_compute; reflexivity|].
  split; [vm_compute; reflexivity|].
  eexists; split; vm_compute; reflexivity.
Qed.

(** With the separation solve at the closest point of the hull, [xh = 1],
    the cut of the same run is [x <= 1] and holds at the feasible point. *)
Example sound_cut_after_exact_separation :
  let H := Sample.collaborators Sample.all_normal in
  let r := _generate_cuttingplanes
             (Sample.config create_cuts_normal_vector None) Sample.sub 5 Sample.w0 in
  fst r = Finished separation_converged /\
  exists c, cuts (transBlock_rBigM (snd r)) !! 0%nat = Some c /\
            satisfied Sample.feasible_point (fun _ => 0) c = true.
Proof.
  split; [vm_compute; reflexivity|]. eexists; split; vm_compute; reflexivity.
Qed.

(** ** Witnesses on the sample *)


(** The second pass of the sample finds the candidate in the hull. *)
Lemma convergence_on_small_distance_witness :
  let H := Sample.collaborators Sample.all_normal in
  let cfg := Sample.config create_cuts_normal_vector None in
  let st1 := snd (round cfg Sample.sub sample_objective PInf sample_start) in
  exists objval improving st',
    separate cfg Sample.sub sample_objective (Fin (-2)) st1 = inr (objval, improving, st') /\
    Qabs (separation_distance st') < 0.01 /\
    round cfg Sample.sub sample_objective (Fin (-2)) st1 = (Exit separation_converged, st') /\
    cuts (transBlock_rBigM st') = cuts (transBlock_rBigM st1).
Proof.
  intros H cfg st1.
  eexists _, _, _.
  assert (Hsep : separate cfg Sample.sub sample_objective (Fin (-2)) st1
                 = inr (?[objval], ?[improving], ?[st']))
    by (vm_compute; reflexivity).
  match type of Hsep with
  | _ = inr (_, _, ?s) =>
      assert (Hlt : Qabs (separation_distance s) < 0.01) by (vm_compute; reflexivity)
  end.
  split; [exact Hsep|]. split; [exact Hlt|].
  destruct (convergence_on_small_distance cfg Sample.sub sample_objective _ st1 _ _ _ Hsep Hlt)
    as (Hr & _ & Hc & _).
  split; [exact Hr | exact Hc].
Defined.


(** ** Cuts from an exact separation

    What the normal-vector cut is when the separation solve does return the
    point of the hull relaxation closest to the candidate: an inequality that
    every point of the hull relaxation satisfies, as long as that relaxation
    is convex. *)

Lemma closest_point_arith (S N : Q) :
  0 <= N ->
  (forall s, 0 <= s -> s <= 1 -> 0 <= 2 * s * S + s * s * N) ->
  0 <= S.
Proof.
  intros HN Hall.
  destruct (Qlt_le_dec S 0) as [Hneg|]; [|assumption]. exfalso.
  destruct (Qlt_le_dec (- S) N) as [Hbig|Hsmall].
  - assert (HNpos : 0 < N) by lra.
    assert (HNnz : ~ N == 0) by lra.
    set (s := - S / N).
    assert (HsN : s * N == - S) by (unfold s; field; exact HNnz).
    assert (Hs0 : 0 < s).
    { unfold s. apply Qlt_shift_div_l; lra. }
    assert (Hs1 : s <= 1).
    { unfold s. apply Qle_shift_div_r; lra. }
    specialize (Hall s (Qlt_le_weak _ _ Hs0) Hs1).
    assert (Heq : 2 * s * S + s * s * N == s * S).
    { transitivity (2 * s * S + s * (s * N)); [ring|]. rewrite HsN. ring. }
    rewrite Heq in Hall.
    assert (Hprod : s * S < 0).
    { assert (Hp : 0 < s * (- S)) by (apply Qmult_lt_0_compat; lra).
      assert (Hq : s * (- S) == - (s * S)) by ring.
      rewrite Hq in Hp. lra. }
    lra.
  - specialize (Hall 1). lra.
Qed.

Lemma separation_expr_acc var_info y target acc :
  value y target
    (fold_left (fun obj_expr t =>
                  Plus obj_expr (Square (Minus (V (x_hull t)) (Prm (x_star t)))))
               var_info acc)
  == value y target acc + squared_distance var_info y target.
Proof.
  revert acc. induction var_info as [|t ts IH]; intros acc; simpl.
  - ring.
  - rewrite IH. simpl. ring.
Qed.

Lemma separation_expr_value var_info y target :
  value y target (separation_expr var_info) == squared_distance var_info y target.
Proof. unfold separation_expr. rewrite separation_expr_acc. simpl. ring. Qed.

Lemma square_nonneg (d : Q) : 0 <= d * d.
Proof.
  destruct (Qlt_le_dec d 0) as [Hneg|Hpos].
  - assert (Hd : 0 <= (- d) * (- d)) by (apply Qmult_le_0_compat; lra).
    assert (Heq : (- d) * (- d) == d * d) by ring.
    rewrite Heq in Hd. exact Hd.
  - apply Qmult_le_0_compat; exact Hpos.
Qed.

Lemma squared_step_nonneg var_info from to : 0 <= squared_step var_info from to.
Proof.
  induction var_info as [|t ts IH]; simpl; [lra|].
  pose proof (square_nonneg (to (x_hull t) - from (x_hull t))). lra.
Qed.

(** The squared distance along the segment from [xhat] to [y]. *)
Lemma squared_distance_segment var_info xhat y target point s :
  Forall (fun t => point (x_rbigm t) == y (x_hull t)) var_info ->
  squared_distance var_info (fun v => xhat v + s * (y v - xhat v)) target
  == squared_distance var_info xhat target
     + 2 * s * normal_vector_sum var_info xhat target point
     + s * s * squared_step var_info xhat y.
Proof.
  induction 1 as [|t ts Ht _ IH]; simpl; [ring|].
  rewrite IH, Ht. ring.
Qed.

Section ExactSeparation.
Variable var_info : list triple.
Variable target : nat -> Q.               (* the candidate, in the slots of xstar *)
Variable hull : (var -> Q) -> Prop.       (* the points of the hull relaxation *)
Variable xhat : var -> Q.                 (* what the separation solve returns *)

Hypothesis hull_convex :
  forall y z s, hull y -> hull z -> 0 <= s -> s <= 1 ->
                hull (fun v => y v + s * (z v - y v)).
Hypothesis xhat_in_hull : hull xhat.
Hypothesis xhat_closest :
  forall y, hull y ->
            value xhat target (separation_expr var_info)
            <= value y target (separation_expr var_info).

(** The cut [0 <= cutexpr] holds at every point of the linear relaxation's
    variables that is the image of a point of the hull relaxation. *)
Lemma exact_separation_cut_valid (y point : var -> Q) (prm : nat -> Q) :
  hull y ->
  Forall (fun t => point (x_rbigm t) == y (x_hull t)) var_info ->
  value_ineq point prm (Le (Num 0) (normal_vector_cutexpr var_info xhat target)) = true.
Proof.
  intros Hy Hpoint. unfold value_ineq. simpl. apply Qle_bool_iff.
  rewrite normal_vector_cutexpr_value.
  apply (closest_point_arith _ (squared_step var_info xhat y)).
  - apply squared_step_nonneg.
  - intros s Hs0 Hs1.
    pose proof (xhat_closest _ (hull_convex xhat y s xhat_in_hull Hy Hs0 Hs1)) as Hmin.
    rewrite !separation_expr_value in Hmin.
    rewrite (squared_distance_segment var_info xhat y target point s Hpoint) in Hmin.
    lra.
Qed.

End ExactSeparation.

(** On the sample, with the hull relaxation [0 <= xh <= 1], the candidate 2
    and the closest point 1: the cut holds at [x = 1]. *)
Lemma exact_separation_cut_valid_sample :
  value_ineq Sample.feasible_point (fun _ => 0)
    (Le (Num 0) (normal_vector_cutexpr Sample.triples (fun _ => 1) (fun _ => 2))) = true.
Proof.
  apply (exact_separation_cut_valid Sample.triples (fun _ => 2)
           (fun y => 0 <= y Sample.xh /\ y Sample.xh <= 1) (fun _ => 1))
    with (y := fun _ => 1).
  - intros y z s [Hy0 Hy1] [Hz0 Hz1] Hs0 Hs1. simpl. nra.
  - simpl. lra.
  - intros y [Hy0 Hy1]. rewrite !separation_expr_value. simpl. nra.
  - simpl. lra.
  - repeat constructor.
Defined.

(** * Further properties *)

(** ** The governing control point (reactor_kinetics.create_model) *)

Module KineticsFacts.
Import Kinetics.

Lemma count_fold keys t j :
  fold_left (fun j t_con => if Qltb t_con t then (j + 1)%Z else j) keys j
  = (j + Z.of_nat (before keys t))%Z.
Proof.
  revert j. induction keys as [|k keys IH]; intros j; simpl; [lia|].
  rewrite IH. destruct (Qltb k t); lia.
Qed.

Lemma count_before_eq controls t :
  count_before controls t = (Z.of_nat (before (t_control controls) t) - 1)%Z.
Proof. unfold count_before. rewrite count_fold. lia. Qed.

Lemma before_le_length keys t : (before keys t <= length keys)%nat.
Proof. induction keys as [|k keys IH]; simpl; [lia|]. destruct (Qltb k t); lia. Qed.

Lemma before_none keys t :
  Forall (fun k => t <= k) keys -> before keys t = 0%nat.
Proof.
  induction 1 as [|k keys Hk _ IH]; simpl; [reflexivity|].
  apply Qltb_ge in Hk. rewrite Hk, IH. reflexivity.
Qed.

(** In increasing keys the ones before [t] come first. *)
Lemma before_sorted keys t :
  StronglySorted Qlt keys ->
  forall i k, keys !! i = Some k -> (k < t <-> (i < before keys t)%nat).
Proof.
  induction 1 as [|a keys Hs IH Hall]; intros i k Hi; [discriminate|].
  simpl. destruct (Qltb a t) eqn:Ha.
  - apply Qltb_lt in Ha. destruct i as [|i]; simpl in *.
    + injection Hi as <-. split; [lia | intros _; exact Ha].
    + rewrite (IH i k Hi). lia.
  - apply Qltb_ge in Ha.
    assert (Hge : Forall (fun k => t <= k) keys).
    { eapply List.Forall_impl; [|exact Hall]. intros b Hb. simpl in Hb. lra. }
    rewrite (before_none keys t Hge). simpl.
    assert (Hk : t <= k).
    { destruct i as [|i]; simpl in Hi; [injection Hi as <-; exact Ha|].
      rewrite List.Forall_forall in Hge. apply Hge.
      apply list_elem_of_In, list_elem_of_lookup. eauto. }
    split; [intros Hlt; lra | lia].
Qed.

Lemma sorted_lookup_le keys :
  StronglySorted Qlt keys ->
  forall i j a b, (i <= j)%nat -> keys !! i = Some a -> keys !! j = Some b -> a <= b.
Proof.
  induction 1 as [|c keys Hs IH Hall]; intros i j a b Hij Hi Hj; [discriminate|].
  destruct i as [|i], j as [|j]; simpl in *; try lia.
  - injection Hi as <-. injection Hj as <-. lra.
  - injection Hi as <-. rewrite List.Forall_forall in Hall.
    apply Qlt_le_weak, Hall, list_elem_of_In, list_elem_of_lookup. eauto.
  - apply (IH i j); [lia | assumption..].
Qed.

Lemma control_point_false controls t :
  is_control_point controls t = false ->
  forall k, In k (t_control controls) -> ~ k == t.
Proof.
  unfold is_control_point. intros Hno k Hk Heq.
  assert (Hex : existsb (fun t_con => Qeq_bool t_con t) (t_control controls) = true).
  { apply existsb_exists. exists k. split; [exact Hk | apply Qeq_bool_iff, Heq]. }
  congruence.
Qed.

(** Looking up a key of the dictionary finds an entry with that key. *)
Lemma getitem_key controls n :
  In n (t_control controls) ->
  exists kv, In kv controls /\ fst kv == n /\ getitem controls n = Ok (snd kv).
Proof.
  unfold getitem, t_control. intros Hin.
  destruct (List.find (fun kv => Qeq_bool (fst kv) n) controls) as [kv|] eqn:Hf.
  - apply find_some in Hf as [Hkv Heq]. apply Qeq_bool_iff in Heq. eauto.
  - apply in_map_iff in Hin as (kv & <- & Hkv).
    pose proof (find_none _ _ Hf kv Hkv) as Hne. simpl in Hne.
    assert (Qeq_bool (fst kv) (fst kv) = true) by (apply Qeq_bool_iff; reflexivity).
    congruence.
Qed.

(** At a control point the initial temperature is the one of that control
    point, and the rule of [T_rule] is skipped. *)
Theorem at_control_point (controls : list (Q * Q)) (t : Q) :
  is_control_point controls t = true ->
  (exists kv, In kv controls /\ fst kv == t /\ T_initial controls t = Ok (snd kv)) /\
  T_control controls t = Ok None.
Proof.
  intros Hcp. unfold T_initial, T_control. rewrite Hcp. split; [|reflexivity].
  unfold getitem.
  destruct (List.find (fun kv => Qeq_bool (fst kv) t) controls) as [kv|] eqn:Hf.
  - apply find_some in Hf as [Hkv Heq]. apply Qeq_bool_iff in Heq. eauto.
  - unfold is_control_point, t_control in Hcp.
    apply existsb_exists in Hcp as (k & Hk & Heq).
    apply in_map_iff in Hk as (kv & <- & Hkv).
    pose proof (find_none _ _ Hf kv Hkv) as Hne. simpl in Hne. congruence.
Qed.

Lemma at_control_point_witness :
  T_initial [(0, 300); (0.5, 350); (1, 400)] 0.5 = Ok 350 /\
  T_control [(0, 300); (0.5, 350); (1, 400)] 0.5 = Ok None.
Proof.
  destruct (at_control_point [(0, 300); (0.5, 350); (1, 400)] 0.5 eq_refl)
    as [_ Hskip].
  split; [reflexivity | exact Hskip].
Defined.

(** With increasing control points, at a time that is no control point and
    has a control point before it: the governing control point is the
    latest one before the time; the initial temperature is the one of that
    control point and the rule ties [T[t]] to it. *)
Theorem between_control_points (controls : list (Q * Q)) (t : Q) :
  StronglySorted Qlt (t_control controls) ->
  is_control_point controls t = false ->
  (exists k, In k (t_control controls) /\ k < t) ->
  exists n v,
    neighbour_t controls t = Ok n /\
    In n (t_control controls) /\ n < t /\
    (forall k, In k (t_control controls) -> k < t -> k <= n) /\
    (exists kv, In kv controls /\ fst kv == n /\ v = snd kv) /\
    T_initial controls t = Ok v /\
    T_control controls t = Ok (Some (t, n)).
Proof.
  intros Hsorted Hcp (k0 & Hk0 & Hlt0).
  set (keys := t_control controls) in *.
  assert (Hpos : (0 < before keys t)%nat).
  { apply list_elem_of_In, list_elem_of_lookup in Hk0 as [i Hi].
    apply (before_sorted keys t Hsorted i k0 Hi) in Hlt0. lia. }
  pose proof (before_le_length keys t) as Hlen.
  destruct (lookup_lt_is_Some_2 keys (before keys t - 1)) as [n Hn]; [lia|].
  assert (Hnb : neighbour_t controls t = Ok n).
  { unfold neighbour_t, py_index. rewrite count_before_eq. fold keys. cbv zeta.
    assert (Hj : (Z.of_nat (before keys t) - 1 <? 0)%Z = false) by lia.
    rewrite !Hj.
    replace (Z.to_nat (Z.of_nat (before keys t) - 1)) with (before keys t - 1)%nat by lia.
    rewrite Hn. reflexivity. }
  assert (Hin : In n keys) by (apply list_elem_of_In, list_elem_of_lookup; eauto).
  destruct (getitem_key controls n Hin) as (kv & Hkv & Hkey & Hget).
  exists n, (snd kv).
  split; [exact Hnb|]. split; [exact Hin|].
  split; [apply (before_sorted keys t Hsorted _ n Hn); lia|].
  split.
  { intros k Hk Hlt. apply list_elem_of_In, list_elem_of_lookup in Hk as [i Hi].
    apply (before_sorted keys t Hsorted i k Hi) in Hlt.
    apply (sorted_lookup_le keys Hsorted i (before keys t - 1)); [lia | assumption..]. }
  split; [exists kv; auto|].
  unfold T_initial, T_control. rewrite Hcp, Hnb. simpl. split; [exact Hget | reflexivity].
Qed.

Lemma between_control_points_witness :
  T_initial [(0, 300); (0.5, 350); (1, 400)] 0.75 = Ok 350 /\
  T_control [(0, 300); (0.5, 350); (1, 400)] 0.75 = Ok (Some (0.75, 0.5)).
Proof.
  destruct (between_control_points [(0, 300); (0.5, 350); (1, 400)] 0.75)
    as (n & v & _ & _ & _ & _ & _ & Hinit & Hrule).
  - repeat constructor.
  - reflexivity.
  - exists 0. split; [left; reflexivity | reflexivity].
  - split; [reflexivity|]. reflexivity.
Defined.

(** At a time with no control point before it that is no control point
    itself, the count stays at -1 and [t_control[-1]] is the last control
    point: the time is tied to the last control point; with no control
    points at all the index raises. *)
Theorem before_first_control_point (controls : list (Q * Q)) (t : Q) :
  is_control_point controls t = false ->
  Forall (fun k => t <= k) (t_control controls) ->
  match last (t_control controls) with
  | Some n =>
      neighbour_t controls t = Ok n /\
      T_control controls t = Ok (Some (t, n)) /\
      T_initial controls t = getitem controls n
  | None =>
      T_initial controls t = Raise IndexError /\
      T_control controls t = Raise IndexError
  end.
Proof.
  intros Hcp Hge.
  assert (Hnb : neighbour_t controls t
                = match last (t_control controls) with
                  | Some n => Ok n
                  | None => Raise IndexError
                  end).
  { unfold neighbour_t, py_index. rewrite count_before_eq, (before_none _ _ Hge).
    rewrite last_lookup. cbv zeta.
    destruct (t_control controls) as [|k keys]; [reflexivity|].
    change (Z.of_nat 0 - 1 <? 0)%Z with true. cbv iota.
    assert (Hj : (Z.of_nat (length (k :: keys)) + (Z.of_nat 0 - 1) <? 0)%Z = false)
      by (apply Z.ltb_ge; cbn [length]; lia).
    rewrite Hj.
    replace (Z.to_nat (Z.of_nat (length (k :: keys)) + (Z.of_nat 0 - 1)))
      with (pred (length (k :: keys))) by (cbn [length]; lia).
    destruct ((k :: keys) !! pred (length (k :: keys))) eqn:Hl; [reflexivity|].
    apply lookup_ge_None in Hl. simpl in Hl. lia. }
  unfold T_initial, T_control. rewrite Hcp, Hnb.
  destruct (last (t_control controls)); simpl; repeat split; reflexivity.
Qed.

Lemma before_first_control_point_witness :
  T_initial [(0.25, 300); (0.5, 350); (1, 400)] 0.125 = Ok 400 /\
  T_initial [] 0.125 = Raise IndexError.
Proof.
  pose proof (before_first_control_point [(0.25, 300); (0.5, 350); (1, 400)] 0.125 eq_refl)
    as H1.
  pose proof (before_first_control_point [] 0.125 eq_refl) as H2.
  simpl in H1, H2.
  split.
  - destruct H1 as (_ & _ & ->); [|reflexivity].
    repeat constructor; unfold Qle; simpl; lia.
  - destruct H2 as [-> _]; [constructor | reflexivity].
Defined.

End KineticsFacts.

(** ** Tight constraints and the linear approximation *)

Lemma at_lower_iff vals prm c :
  at_lower vals prm c <->
  match lower c with
  | Some l => Qle_bool (value vals prm (body c)) (value vals prm l) = true
  | None => False
  end.
Proof.
  unfold at_lower. destruct (lower c) as [l|].
  - rewrite Qle_bool_iff. split; [intros (l' & [= <-] & Hl); exact Hl | eauto].
  - split; [intros (l' & Hl & _); discriminate | contradiction].
Qed.

Lemma at_upper_iff vals prm c :
  at_upper vals prm c <->
  match upper c with
  | Some u => Qle_bool (value vals prm u) (value vals prm (body c)) = true
  | None => False
  end.
Proof.
  unfold at_upper. destruct (upper c) as [u|].
  - rewrite Qle_bool_iff. split; [intros (u' & [= <-] & Hu); exact Hu | eauto].
  - split; [intros (u' & Hu & _); discriminate | contradiction].
Qed.

(** The multiplier of [_constraint_tight] is -1 when only the lower bound is
    reached, 1 when only the upper bound is, and 0 both when neither is and
    when both are (an equality constraint that holds). *)
Theorem constraint_tight_cases (vals : var -> Q) (prm : nat -> Q) (c : ConstraintData) :
  let r := _constraint_tight vals prm c in
  (r = (-1)%Z <-> at_lower vals prm c /\ ~ at_upper vals prm c) /\
  (r = 1%Z <-> at_upper vals prm c /\ ~ at_lower vals prm c) /\
  (r = 0%Z <-> (at_lower vals prm c <-> at_upper vals prm c)).
Proof.
  cbv zeta. rewrite !at_lower_iff, !at_upper_iff. unfold _constraint_tight.
  destruct (lower c) as [l|], (upper c) as [u|];
    try destruct (Qle_bool (value vals prm (body c)) (value vals prm l));
    try destruct (Qle_bool (value vals prm u) (value vals prm (body c)));
    simpl; intuition (try discriminate; try lia).
Qed.

Section NothingTight.
Context `{Collaborators}.

Lemma collect_nothing_tight vals prm rHull_vars dc cs :
  Forall (fun c => _constraint_tight vals prm (snd c) = 0%Z) cs ->
  forall conslist, exists conslist',
    for_each (collect_tight vals prm rHull_vars dc) cs ([], conslist) = Ok ([], conslist').
Proof.
  induction 1 as [|c cs Hc _ IH]; intros conslist; simpl; [eauto|].
  unfold collect_tight at 1. rewrite Hc. simpl.
  destruct (bool_decide (fst c ∈ dc)); simpl; apply IH.
Qed.

(** When no constraint of the hull instance has a multiplier (each is
    strictly within its bounds, or an equality that holds), the generator
    returns None, whatever disaggregation constraints it has gathered and
    whatever the variables are: nothing is looked up and nothing raised. *)
Theorem fme_none_when_nothing_tight (var_info : list triple)
    (hull_to_bigm_map : gmap var var) (disaggregated_vars : list var)
    (disaggregation_constraints : gset nat) (rHull_vars : list var)
    (instance_rHull : Model) (rBigM_linear_constraints : list ConstraintData)
    (transBlock_rBigm : TransBlock) (transBlock_rHull : HullBlock)
    (cut_threshold zero_tolerance : Q) (vals : var -> Q) :
  Forall (fun c => _constraint_tight vals (xstar transBlock_rHull) (snd c) = 0%Z)
         (m_constraints instance_rHull) ->
  create_cuts_fme var_info hull_to_bigm_map disaggregated_vars
    disaggregation_constraints rHull_vars instance_rHull rBigM_linear_constraints
    transBlock_rBigm transBlock_rHull cut_threshold zero_tolerance vals = Ok None.
Proof.
  intros Hnone. unfold create_cuts_fme, fme_candidates.
  destruct (collect_nothing_tight vals (xstar transBlock_rHull) rHull_vars
              disaggregation_constraints _ Hnone []) as [conslist' ->].
  reflexivity.
Qed.

End NothingTight.

(** The hull point [xh = 1/2] of the sample is strictly inside [0 <= xh <= 1]. *)
Lemma fme_none_when_nothing_tight_witness :
  @create_cuts_fme (Sample.collaborators Sample.all_normal) Sample.triples ∅ [] ∅
    [Sample.xh] Sample.hull_model [] (block_rBigM Sample.sub) (block_rHull Sample.sub)
    0.001 0.000000001 (fun _ => 1 # 2) = Ok None.
Proof.
  apply (@fme_none_when_nothing_tight (Sample.collaborators Sample.all_normal)).
  repeat constructor.
Defined.

Lemma sum_normal_times_value_spec vals normal_vec point :
  forall idx acc,
    (idx <= length normal_vec)%nat ->
    match sum_normal_times_value vals normal_vec idx point acc with
    | Ok s => (idx + length point <= length normal_vec)%nat /\
              s == acc + dot (drop idx normal_vec) point vals
    | Raise e => e = IndexError /\ (length normal_vec < idx + length point)%nat
    end.
Proof.
  induction point as [|v point IH]; intros idx acc Hidx; simpl.
  - split; [lia | destruct (drop idx normal_vec); simpl; ring].
  - destruct (normal_vec !! idx) as [n|] eqn:Hn.
    + assert (Hlt : (idx < length normal_vec)%nat) by (apply lookup_lt_is_Some; eauto).
      specialize (IH (S idx) (acc + n * vals v) Hlt).
      destruct (sum_normal_times_value vals normal_vec (S idx) point (acc + n * vals v))
        as [s|e].
      * destruct IH as [Hlen Hs]. split; [lia|].
        rewrite Hs. rewrite (drop_S _ _ _ Hn). simpl. ring.
      * destruct IH as [-> Hlen]. split; [reflexivity | lia].
    + apply lookup_ge_None in Hn. split; [reflexivity | lia].
Qed.

Lemma linear_body_acc normal_vec : forall point acc p prm,
  value p prm
    (fold_left (fun body cv => Minus body (Times (V (fst cv)) (Num (snd cv))))
               (zip point normal_vec) acc)
  == value p prm acc - dot normal_vec point p.
Proof.
  induction normal_vec as [|n ns IH]; intros [|v vs] acc p prm; simpl; try ring.
  rewrite IH. simpl. ring.
Qed.

(** [_get_linear_approximation_expr] raises IndexError exactly when the
    normal vector is shorter than the point.  Otherwise its inequality reads
    [-(n . xhat) <= -(n . x)], with [xhat] the current values of the
    variables: it holds with equality at the current point, and at any other
    point exactly when [n . x <= n . xhat]. *)
Theorem linear_approximation_expr (vals : var -> Q) (normal_vec : list Q)
    (point : list var) :
  match _get_linear_approximation_expr vals normal_vec point with
  | Ok c =>
      (length point <= length normal_vec)%nat /\
      (forall p prm, value p prm (arg0 c) == - dot normal_vec point vals) /\
      (forall p prm, value p prm (arg1 c) == - dot normal_vec point p) /\
      (forall prm, value vals prm (arg0 c) == value vals prm (arg1 c)) /\
      (forall p prm, value_ineq p prm c = true <->
                     dot normal_vec point p <= dot normal_vec point vals)
  | Raise e => e = IndexError /\ (length normal_vec < length point)%nat
  end.
Proof.
  unfold _get_linear_approximation_expr.
  pose proof (sum_normal_times_value_spec vals normal_vec point 0 0 ltac:(lia)) as Hsum.
  destruct (sum_normal_times_value vals normal_vec 0 point 0) as [s|e]; simpl.
  - destruct Hsum as [Hlen Hs]. rewrite drop_0 in Hs.
    assert (H0 : forall p prm, value p prm (Num (- s)) == - dot normal_vec point vals).
    { intros p prm. simpl. rewrite Hs. ring. }
    assert (H1 : forall p prm,
               value p prm
                 (fold_left (fun body cv => Minus body (Times (V (fst cv)) (Num (snd cv))))
                            (zip point normal_vec) (Num 0))
               == - dot normal_vec point p).
    { intros p prm. rewrite linear_body_acc. simpl. ring. }
    split; [lia|]. split; [exact H0|]. split; [exact H1|].
    split.
    { intros prm. transitivity (- dot normal_vec point vals);
        [exact (H0 vals prm) | symmetry; exact (H1 vals prm)]. }
    intros p prm. unfold value_ineq. cbn [arg0 arg1].
    pose proof (H0 p prm) as E0. pose proof (H1 p prm) as E1.
    split; intros Hle; [apply Qle_bool_iff in Hle | apply Qle_bool_iff]; lra.
  - destruct Hsum as [-> Hlen]. split; [reflexivity | lia].
Qed.

(** ** The substitution maps *)

Lemma fold_insert_frame {A : Type} (k v : A -> var) (l : list A) :
  forall (m : gmap var var) (key : var),
    ~ In key (map k l) ->
    fold_left (fun m a => <[k a := v a]> m) l m !! key = m !! key.
Proof.
  induction l as [|a l IH]; intros m key Hnot; simpl; [reflexivity|].
  rewrite IH by (intros Hin; apply Hnot; right; exact Hin).
  apply lookup_insert_ne. intros Heq. apply Hnot. left. exact Heq.
Qed.

Lemma fold_insert_lookup {A : Type} (k v : A -> var) (l : list A) :
  forall (m : gmap var var) (t : A),
    List.NoDup (map k l) -> In t l ->
    fold_left (fun m a => <[k a := v a]> m) l m !! k t = Some (v t).
Proof.
  induction l as [|a l IH]; intros m t Hnd Hin; [destruct Hin|].
  simpl in *. inversion Hnd as [|? ? Hfresh Hnd']; subst.
  destruct Hin as [-> | Hin].
  - rewrite fold_insert_frame by exact Hfresh. apply lookup_insert_eq.
  - apply IH; assumption.
Qed.

(** A substituted expression has the value of the original one read at the
    images of its variables. *)
Theorem substitute_value (m : gmap var var) (vals : var -> Q) (prm : nat -> Q) (e : expr) :
  value vals prm (substitute m e) = value (renamed m vals) prm e.
Proof.
  induction e as [q|v|i|a IHa b IHb|a IHa b IHb|a IHa b IHb|a IHa]; simpl;
    try rewrite IHa; try rewrite IHb; try reflexivity.
  unfold renamed. destruct (m !! v); reflexivity.
Qed.

(** With no variable twice in either column of the triples, translating an
    expression of hull variables to the linear relaxation and back gives the
    expression again, and so does the other way round. *)
Theorem substitution_round_trip (var_info : list triple) (e : expr) :
  List.NoDup (map x_hull var_info) ->
  List.NoDup (map x_rbigm var_info) ->
  (over (fun v => In v (map x_hull var_info)) e ->
   substitute (_create_bigm_to_hull_substition_map var_info)
     (substitute (_create_hull_to_bigm_substitution_map var_info) e) = e) /\
  (over (fun v => In v (map x_rbigm var_info)) e ->
   substitute (_create_hull_to_bigm_substitution_map var_info)
     (substitute (_create_bigm_to_hull_substition_map var_info) e) = e).
Proof.
  intros Hh Hb.
  unfold _create_bigm_to_hull_substition_map, _create_hull_to_bigm_substitution_map.
  split; intros Hover;
    induction e as [q|v|i|a IHa b IHb|a IHa b IHb|a IHa b IHb|a IHa]; simpl in *;
    try reflexivity;
    try (destruct Hover as [Ha Hb']; rewrite (IHa Ha), (IHb Hb'); reflexivity);
    try (rewrite (IHa Hover); reflexivity).
  - apply in_map_iff in Hover as (t & <- & Ht).
    rewrite (fold_insert_lookup x_hull x_rbigm var_info ∅ t Hh Ht). simpl.
    rewrite (fold_insert_lookup x_rbigm x_hull var_info ∅ t Hb Ht). reflexivity.
  - apply in_map_iff in Hover as (t & <- & Ht).
    rewrite (fold_insert_lookup x_rbigm x_hull var_info ∅ t Hb Ht). simpl.
    rewrite (fold_insert_lookup x_hull x_rbigm var_info ∅ t Hh Ht). reflexivity.
Qed.

Lemma substitution_round_trip_witness :
  let e := Plus (Square (V Sample.xh)) (Num 1) in
  substitute (_create_bigm_to_hull_substition_map Sample.triples)
    (substitute (_create_hull_to_bigm_substitution_map Sample.triples) e) = e.
Proof.
  intros e.
  apply (substitution_round_trip Sample.triples e).
  - repeat constructor. intros [].
  - repeat constructor. intros [].
  - simpl. auto.
Defined.

(** ** The normal-vector cut and the squared distance *)

Lemma sum_at_target_distance var_info vals prm :
  normal_vector_sum_at_target var_info vals prm == - squared_distance var_info vals prm.
Proof.
  induction var_info as [|t ts IH]; simpl; [ring|]. rewrite IH. ring.
Qed.

Lemma sum_at_hull_point var_info vals prm point :
  Forall (fun t => point (x_rbigm t) == vals (x_hull t)) var_info ->
  normal_vector_sum var_info vals prm point == 0.
Proof.
  induction 1 as [|t ts Ht _ IH]; simpl; [reflexivity|]. rewrite IH, Ht. ring.
Qed.

(** With the variables of the linear relaxation at the target point: the
    value of the cut expression there is minus the squared distance between
    the hull point and the target, so the generator returns its cut exactly
    when that squared distance exceeds the tolerance; and the expression
    vanishes at the hull point itself (the cut passes through it). *)
Theorem normal_vector_cut_iff_far (var_info : list triple) (hull_to_bigm_map : gmap var var)
    (disaggregated_vars : list var) (disaggregation_constraints : gset nat)
    (rHull_vars : list var) (instance_rHull : Model)
    (rBigM_linear_constraints : list ConstraintData)
    (transBlock_rBigM : TransBlock) (transBlock_rHull : HullBlock)
    (TOL zero_tolerance : Q) (vals : var -> Q) :
  Forall (fun t => vals (x_rbigm t) == xstar transBlock_rHull (x_star t)) var_info ->
  let prm := xstar transBlock_rHull in
  let cutexpr := normal_vector_cutexpr var_info vals prm in
  let result :=
    create_cuts_normal_vector var_info hull_to_bigm_map disaggregated_vars
      disaggregation_constraints rHull_vars instance_rHull rBigM_linear_constraints
      transBlock_rBigM transBlock_rHull TOL zero_tolerance vals in
  value vals prm cutexpr == - squared_distance var_info vals prm /\
  (result = Ok (Some [Le (Num 0) cutexpr]) <-> TOL < squared_distance var_info vals prm) /\
  (result = Ok None <-> squared_distance var_info vals prm <= TOL) /\
  (forall point prm',
     Forall (fun t => point (x_rbigm t) == vals (x_hull t)) var_info ->
     value point prm' cutexpr == 0).
Proof.
  intros Htarget prm cutexpr result.
  assert (Hval : value vals prm cutexpr == - squared_distance var_info vals prm).
  { unfold cutexpr. rewrite normal_vector_cutexpr_value.
    rewrite (normal_vector_sum_target var_info vals prm Htarget).
    apply sum_at_target_distance. }
  split; [exact Hval|].
  unfold result, create_cuts_normal_vector. fold prm. fold cutexpr.
  destruct (Qltb (value vals prm cutexpr) (- TOL)) eqn:Hlt.
  - apply Qltb_lt in Hlt. rewrite Hval in Hlt.
    split; [split; [intros _; lra | reflexivity]|].
    split; [split; [discriminate | intros Hle; lra]|].
    intros point prm' Hpoint. unfold cutexpr. rewrite normal_vector_cutexpr_value.
    apply sum_at_hull_point, Hpoint.
  - apply Qltb_ge in Hlt. rewrite Hval in Hlt.
    split; [split; [discriminate | intros Hgt; lra]|].
    split; [split; [intros _; lra | reflexivity]|].
    intros point prm' Hpoint. unfold cutexpr. rewrite normal_vector_cutexpr_value.
    apply sum_at_hull_point, Hpoint.
Qed.

(** Candidate 2, hull point 1: squared distance 1, beyond the tolerance. *)
Lemma normal_vector_cut_iff_far_witness :
  let vals := set_var Sample.xh 1 (set_var Sample.x 2 (fun _ => 0)) in
  let tb := with_xstar (fun _ => 2) (block_rHull Sample.sub) in
  value vals (xstar tb) (normal_vector_cutexpr Sample.triples vals (xstar tb))
  == - squared_distance Sample.triples vals (xstar tb).
Proof.
  intros vals tb.
  refine (proj1 (normal_vector_cut_iff_far Sample.triples ∅ [] ∅ [] Sample.hull_model []
                   (block_rBigM Sample.sub) tb 0.001 0.000000001 vals _)).
  repeat constructor.
Defined.

(** ** The choice among equal margins *)

Section TieBreak.
Variable vals : var -> Q.
Variable prm : nat -> Q.
Variable cut_threshold : Q.

(** After the cuts [seen] (in the order of the visit), the best cut is the
    first one visited among those of the largest margin. *)
Definition first_best (seen : list ineq) (acc : Q * option ineq) : Prop :=
  match snd acc with
  | None => True
  | Some b =>
      fst acc == violation_margin vals prm b /\
      cut_threshold < violation_margin vals prm b /\
      exists earlier later,
        seen = earlier ++ b :: later /\
        (forall c, In c earlier -> violated vals prm c ->
                   violation_margin vals prm c < violation_margin vals prm b) /\
        (forall c, In c later -> violated vals prm c ->
                   violation_margin vals prm c <= violation_margin vals prm b)
  end.

Lemma first_best_step seen acc cut :
  best_so_far vals prm cut_threshold (rev seen) acc ->
  first_best seen acc ->
  first_best (seen ++ [cut]) (keep_best vals prm cut_threshold acc cut).
Proof.
  destruct acc as [best [b|]]; unfold best_so_far, first_best, keep_best; simpl.
  - intros (_ & _ & _ & _ & Hmax) (Hbest & Hthr & earlier & later & -> & Hearly & Hlate).
    assert (Hkeep :
      (violated vals prm cut ->
       violation_margin vals prm cut <= violation_margin vals prm b) ->
      best == violation_margin vals prm b /\
      cut_threshold < violation_margin vals prm b /\
      exists earlier0 later0,
        (earlier ++ b :: later) ++ [cut] = earlier0 ++ b :: later0 /\
        (forall c, In c earlier0 -> violated vals prm c ->
                   violation_margin vals prm c < violation_margin vals prm b) /\
        (forall c, In c later0 -> violated vals prm c ->
                   violation_margin vals prm c <= violation_margin vals prm b)).
    { intros Hcut. split; [exact Hbest|]. split; [exact Hthr|].
      exists earlier, (later ++ [cut]). split; [rewrite <- app_assoc; reflexivity|].
      split; [exact Hearly|].
      intros c Hc Hv. apply in_app_or in Hc as [Hc | [<- | []]]; auto. }
    destruct (value_ineq vals prm cut) eqn:Hsat; simpl.
    + apply Hkeep. unfold violated. congruence.
    + fold (violation_margin vals prm cut).
      destruct (Qltb cut_threshold (violation_margin vals prm cut)) eqn:H1;
        destruct (Qltb best (violation_margin vals prm cut)) eqn:H2; simpl;
        try apply Qltb_lt in H1; try apply Qltb_lt in H2;
        try apply Qltb_ge in H1; try apply Qltb_ge in H2;
        try (apply Hkeep; intros _; lra).
      split; [reflexivity|]. split; [exact H1|].
      exists (earlier ++ b :: later), []. split; [reflexivity|].
      split; [|intros c []].
      intros c Hc Hv.
      assert (Hle : violation_margin vals prm c <= violation_margin vals prm b).
      { apply Hmax; [|exact Hv]. apply in_rev. rewrite rev_involutive. exact Hc. }
      lra.
  - intros (Hbest & Hnone) _.
    destruct (value_ineq vals prm cut) eqn:Hsat; simpl; [exact I|].
    fold (violation_margin vals prm cut).
    destruct (Qltb cut_threshold (violation_margin vals prm cut)) eqn:H1;
      destruct (Qltb best (violation_margin vals prm cut)) eqn:H2; simpl;
      try exact I.
    apply Qltb_lt in H1.
    split; [reflexivity|]. split; [exact H1|].
    exists seen, []. split; [reflexivity|]. split; [|intros c []].
    intros c Hc Hv.
    assert (Hno : ~ cut_threshold < violation_margin vals prm c).
    { apply Hnone; [|exact Hv]. apply in_rev. rewrite rev_involutive. exact Hc. }
    lra.
Qed.

Lemma first_best_fold l : forall seen acc,
  best_so_far vals prm cut_threshold (rev seen) acc ->
  first_best seen acc ->
  first_best (seen ++ l) (fold_left (keep_best vals prm cut_threshold) l acc).
Proof.
  induction l as [|cut l IH]; intros seen acc Hb Hf; simpl.
  - rewrite app_nil_r. exact Hf.
  - replace (seen ++ cut :: l) with ((seen ++ [cut]) ++ l)
      by (rewrite <- app_assoc; reflexivity).
    apply IH.
    + rewrite rev_app_distr. simpl. apply keep_best_step, Hb.
    + apply first_best_step; assumption.
Qed.

(** Among violated cuts of the same, largest margin the one with the highest
    index is returned: every violated cut after the returned one has a
    strictly smaller margin. *)
Theorem select_cut_last_of_the_best (cuts : list ineq) :
  match select_cut vals prm cut_threshold cuts with
  | Some l =>
      exists b before after,
        l = [b] /\ cuts = before ++ b :: after /\
        (forall c, In c after -> violated vals prm c ->
                   violation_margin vals prm c < violation_margin vals prm b) /\
        (forall c, In c before -> violated vals prm c ->
                   violation_margin vals prm c <= violation_margin vals prm b)
  | None => forall c, In c cuts -> violated vals prm c ->
                      ~ cut_threshold < violation_margin vals prm c
  end.
Proof.
  pose proof (select_cut_spec vals prm cut_threshold cuts) as Hspec.
  unfold select_cut in *.
  assert (H0 : best_so_far vals prm cut_threshold (rev []) (0, None)).
  { unfold best_so_far. simpl. split; [reflexivity | intros c []]. }
  pose proof (first_best_fold (rev cuts) [] (0, None) H0 I) as Hf.
  simpl in Hf. unfold first_best in Hf.
  destruct (snd (fold_left (keep_best vals prm cut_threshold) (rev cuts) (0, None)))
    as [b|]; [|exact Hspec].
  destruct Hf as (_ & _ & earlier & later & Hsplit & Hearly & Hlate).
  exists b, (rev later), (rev earlier). split; [reflexivity|].
  split.
  { rewrite <- (rev_involutive cuts), Hsplit, rev_app_distr. simpl.
    rewrite <- app_assoc. reflexivity. }
  split; intros c Hc Hv; [apply Hearly | apply Hlate]; auto; apply in_rev; exact Hc.
Qed.

End TieBreak.

(** Two violated cuts of margin 1 at [x = 2]: the second is returned. *)
Example select_cut_tie :
  select_cut (fun _ => 2) (fun _ => 0) 0.001
    [Le (Num 3) (V 0%nat); Le (Plus (Num 1) (Num 2)) (V 0%nat)]
  = Some [Le (Plus (Num 1) (Num 2)) (V 0%nat)].
Proof. reflexivity. Qed.

(** ** Copying the candidate *)

Lemma copy_xstar_fold sub st : copy_xstar sub st = fold_left copy_step (var_info sub) st.
Proof. reflexivity. Qed.

Lemma copy_fold (l : list triple) : forall st,
  List.NoDup (map x_star l) -> List.NoDup (map x_hull l) ->
  (forall t t', In t l -> In t' l -> x_rbigm t <> x_hull t') ->
  let st' := fold_left copy_step l st in
  (forall v, ~ In v (map x_hull l) -> values (world st') v = values (world st) v) /\
  (forall i, ~ In i (map x_star l) ->
             xstar (transBlock_rHull st') i = xstar (transBlock_rHull st) i) /\
  (forall t, In t l ->
             values (world st') (x_hull t) = values (world st) (x_rbigm t) /\
             xstar (transBlock_rHull st') (x_star t) = values (world st) (x_rbigm t)).
Proof.
  induction l as [|a l IH]; intros st Hs Hh Hdisj; cbn [fold_left]; cbv zeta.
  - split; [intros; reflexivity|]. split; [intros; reflexivity|]. intros t' [].
  - inversion Hs as [|? ? Hsa Hs']; inversion Hh as [|? ? Hha Hh']; subst.
    set (st1 := copy_step st a).
    destruct (IH st1 Hs' Hh') as (Hv & Hx & Ht).
    { intros t t' Hin Hin'. apply Hdisj; right; assumption. }
    assert (Hv1 : forall v, v <> x_hull a -> values (world st1) v = values (world st) v).
    { intros v Hne. simpl. unfold set_var.
      destruct (Nat.eqb_spec v (x_hull a)); [contradiction | reflexivity]. }
    assert (Hx1 : forall i, i <> x_star a ->
                            xstar (transBlock_rHull st1) i = xstar (transBlock_rHull st) i).
    { intros i Hne. simpl. destruct (Nat.eqb_spec i (x_star a)); [contradiction | reflexivity]. }
    assert (Ha : values (world st1) (x_hull a) = values (world st) (x_rbigm a) /\
                 xstar (transBlock_rHull st1) (x_star a) = values (world st) (x_rbigm a)).
    { simpl. unfold set_var. rewrite !Nat.eqb_refl. split; reflexivity. }
    split; [|split].
    + intros v Hnot. rewrite Hv by (intros Hin; apply Hnot; right; exact Hin).
      apply Hv1. intros ->. apply Hnot. left. reflexivity.
    + intros i Hnot. rewrite Hx by (intros Hin; apply Hnot; right; exact Hin).
      apply Hx1. intros ->. apply Hnot. left. reflexivity.
    + intros t [<- | Hin].
      * rewrite (Hv _ Hha), (Hx _ Hsa). exact Ha.
      * destruct (Ht t Hin) as [H1 H2]. rewrite H1, H2.
        assert (Hne : x_rbigm t <> x_hull a)
          by (apply Hdisj; [right; exact Hin | left; reflexivity]).
        rewrite (Hv1 _ Hne). split; reflexivity.
Qed.

Lemma squared_distance_zero l hv tv :
  Forall (fun t => hv (x_hull t) == tv (x_star t)) l -> squared_distance l hv tv == 0.
Proof.
  induction 1 as [|t ts Ht _ IH]; simpl; [reflexivity|]. rewrite IH, Ht. ring.
Qed.

(** With distinct slots, distinct hull variables and no variable on both
    sides, lines 684-687 leave, for every triple, the value of the linear
    variable in the slot of xstar and in the hull variable, and the linear
    variable as it was; nothing else changes, and the separation objective
    is 0 at the point the hull solve starts from. *)
Theorem copy_xstar_effect (sub : Subproblems) (st : State) :
  List.NoDup (map x_star (var_info sub)) ->
  List.NoDup (map x_hull (var_info sub)) ->
  (forall t t', In t (var_info sub) -> In t' (var_info sub) -> x_rbigm t <> x_hull t') ->
  let st' := copy_xstar sub st in
  (forall t, In t (var_info sub) ->
     xstar (transBlock_rHull st') (x_star t) = values (world st) (x_rbigm t) /\
     values (world st') (x_hull t) = values (world st) (x_rbigm t) /\
     values (world st') (x_rbigm t) = values (world st) (x_rbigm t)) /\
  (forall v, ~ In v (map x_hull (var_info sub)) ->
             values (world st') v = values (world st) v) /\
  (forall i, ~ In i (map x_star (var_info sub)) ->
             xstar (transBlock_rHull st') i = xstar (transBlock_rHull st) i) /\
  transBlock_rBigM st' = transBlock_rBigM st /\
  value (values (world st')) (xstar (transBlock_rHull st'))
        (separation_expr (var_info sub)) == 0.
Proof.
  intros Hs Hh Hdisj st'.
  destruct (copy_fold (var_info sub) st Hs Hh Hdisj) as (Hv & Hx & Ht).
  cbv zeta in Hv, Hx, Ht. rewrite <- copy_xstar_fold in Hv, Hx, Ht. fold st' in Hv, Hx, Ht.
  split.
  { intros t Hin. destruct (Ht t Hin) as [H1 H2]. split; [exact H2|]. split; [exact H1|].
    apply Hv. intros Hin'. apply in_map_iff in Hin' as (t' & Heq & Hin').
    apply (Hdisj t t' Hin Hin'). symmetry. exact Heq. }
  split; [exact Hv|]. split; [exact Hx|].
  split; [apply copy_xstar_frame|].
  rewrite separation_expr_value. apply squared_distance_zero.
  apply List.Forall_forall. intros t Hin. destruct (Ht t Hin) as [H1 H2].
  rewrite H1, H2. reflexivity.
Qed.

Lemma copy_xstar_effect_witness :
  let st := with_world (set_values (fun _ => 2) Sample.w0) sample_start in
  value (values (world (copy_xstar Sample.sub st)))
        (xstar (transBlock_rHull (copy_xstar Sample.sub st)))
        (separation_expr (var_info Sample.sub)) == 0.
Proof.
  intros st.
  refine (proj2 (proj2 (proj2 (proj2 (copy_xstar_effect Sample.sub st _ _ _))))).
  - repeat constructor. intros [].
  - repeat constructor. intros [].
  - intros t t' [<- | []] [<- | []]. discriminate.
Defined.

(** ** The triples *)

Lemma make_var_info_spec vs hull : forall i,
  match make_var_info i vs hull with
  | Ok ts =>
      (vs = [] \/ i + length vs <= length hull)%nat /\
      length ts = length vs /\
      forall k t, ts !! k = Some t ->
                  vs !! k = Some (x_rbigm t) /\ hull !! (i + k)%nat = Some (x_hull t) /\
                  x_star t = (i + k)%nat
  | Raise e => e = IndexError /\ (length hull < i + length vs)%nat
  end.
Proof.
  induction vs as [|v vs IH]; intros i; simpl.
  - split; [left; reflexivity|]. split; [reflexivity|]. intros k t Hk. discriminate.
  - destruct (hull !! i) as [vh|] eqn:Hi.
    + specialize (IH (S i)). destruct (make_var_info (S i) vs hull) as [ts|e]; simpl.
      * destruct IH as (Hlen & Hts & Hk).
        assert (Hi' : (i < length hull)%nat) by (apply lookup_lt_is_Some; eauto).
        split; [right; destruct Hlen as [-> | Hlen]; simpl; lia|].
        split; [simpl; lia|].
        intros [|k] t Ht; simpl in Ht.
        -- injection Ht as <-. simpl. rewrite Nat.add_0_r. repeat split; assumption.
        -- destruct (Hk k t Ht) as (H1 & H2 & H3).
           replace (i + S k)%nat with (S i + k)%nat by lia. repeat split; assumption.
      * destruct IH as [-> Hlen]. split; [reflexivity | lia].
    + apply lookup_ge_None in Hi. split; [reflexivity | lia].
Qed.

(** The triples pair the variables by position and number the slots from 0;
    they are built exactly when the hull block lists at least as many
    variables, and IndexError is raised otherwise. *)
Theorem var_info_by_position (vs hull : list var) :
  match make_var_info 0 vs hull with
  | Ok ts =>
      (length vs <= length hull)%nat /\
      length ts = length vs /\
      (forall k t, ts !! k = Some t ->
                   vs !! k = Some (x_rbigm t) /\ hull !! k = Some (x_hull t) /\ x_star t = k) /\
      List.NoDup (map x_star ts)
  | Raise e => e = IndexError /\ (length hull < length vs)%nat
  end.
Proof.
  pose proof (make_var_info_spec vs hull 0) as Hspec.
  destruct (make_var_info 0 vs hull) as [ts|e]; [|exact Hspec].
  destruct Hspec as (Hlen & Hts & Hk).
  split; [destruct Hlen as [-> | Hlen]; simpl in *; lia|].
  split; [exact Hts|]. split; [exact Hk|].
  apply NoDup_ListNoDup, NoDup_alt. intros i j s Hi Hj.
  rewrite list_lookup_fmap in Hi, Hj.
  destruct (ts !! i) as [ti|] eqn:Eti; [|discriminate].
  destruct (ts !! j) as [tj|] eqn:Etj; [|discriminate].
  simpl in Hi, Hj. injection Hi as Hi. injection Hj as Hj.
  destruct (Hk i ti Eti) as (_ & _ & Hsi). destruct (Hk j tj Etj) as (_ & _ & Hsj).
  simpl in Hsi, Hsj. congruence.
Qed.

(** ** What the builder hands to the loop *)



(** ** Ways out of the loop *)

Section LoopFacts.
Context `{Collaborators}.
Variable config : Config.
Variable sub : Subproblems.
Variable rBigM_obj : ObjectiveData.

Lemma round_next_improving prev st i p st' :
  round config sub rBigM_obj prev st = (Next i p, st') -> i = true.
Proof.
  unfold round.
  destruct (separate config sub rBigM_obj prev st) as [[f st1]|[[objval b] st1]] eqn:Hsep.
  - intros [= -> ->]. revert Hsep. unfold separate.
    destruct (solve_rBigM _ _ _) as [results vals]. simpl.
    destruct (negb (is_NORMAL (verify_successful_solve results))); [discriminate|].
    destruct (improving_test _ _ _) as [b|e]; [|discriminate].
    destruct (solve_rHull _ _ _) as [results' vals']. discriminate.
  - destruct (Qltb _ _); [discriminate|].
    destruct (create_cuts _ _ _ _ _ _ _ _ _ _ _ _ _) as [[cs|]|e]; try discriminate.
    destruct b; simpl; [|discriminate].
    destruct (add_cuts _ _ _ _) as [[u|e] st2]; [|discriminate].
    intros [= <- _ _]. reflexivity.
Qed.

(** The test of [while (improving)] never ends the loop: a pass that comes
    back to the head of the loop has the flag set, so the loop is left by a
    return, a break or an exception only. *)
Theorem loop_never_leaves_at_its_head (fuel : nat) (prev : xfloat) (st : State) :
  fst (loop config sub rBigM_obj fuel true prev st) <> Finished while_condition_false.
Proof.
  revert prev st. induction fuel as [|fuel IH]; intros prev st; simpl; [discriminate|].
  destruct (round config sub rBigM_obj prev st) as [[i p|e|e] st1] eqn:Hround; simpl.
  - rewrite (round_next_improving prev st i p st1 Hround). apply IH.
  - intros [= ->]. revert Hround. unfold round.
    destruct (separate config sub rBigM_obj prev st) as [[f st2]|[[objval b] st2]] eqn:Hsep.
    + intros [= -> ->]. revert Hsep. unfold separate.
      destruct (solve_rBigM _ _ _) as [results vals]. simpl.
      destruct (negb (is_NORMAL (verify_successful_solve results))); [discriminate|].
      destruct (improving_test _ _ _) as [b|e]; [|discriminate].
      destruct (solve_rHull _ _ _) as [results' vals'].
      destruct (negb (is_NORMAL (verify_successful_solve results))); discriminate.
    + destruct (Qltb _ _); [discriminate|].
      destruct (create_cuts _ _ _ _ _ _ _ _ _ _ _ _ _) as [[cs|]|e]; try discriminate.
      destruct (negb b); [discriminate|].
      destruct (add_cuts _ _ _ _) as [[u|e] st3]; discriminate.
  - discriminate.
Qed.

(** When the solve of the linear relaxation is not normal, the pass returns
    at once: the solver was called once, the warning logged, neither block
    touched (no target copied, no cut added), and the run ends there. *)
Theorem rBigM_failure_returns (fuel : nat) (prev : xfloat) (st : State) :
  let solved := solve_rBigM (instance_rBigM sub) (transBlock_rBigM st) (values (world st)) in
  verify_successful_solve (fst solved) <> NORMAL ->
  let st' := {| world := {| values := snd solved;
                            log := log (world st)
                                   ++ [Solve_rBigM; Warning rBigM_did_not_solve_normally] |};
                transBlock_rBigM := transBlock_rBigM st;
                transBlock_rHull := transBlock_rHull st |} in
  round config sub rBigM_obj prev st = (Exit rBigM_solve_failed, st') /\
  loop config sub rBigM_obj (S fuel) true prev st = (Finished rBigM_solve_failed, st').
Proof.
  intros solved Hfail st'.
  assert (Hround : round config sub rBigM_obj prev st = (Exit rBigM_solve_failed, st')).
  { unfold round, separate. subst solved st'.
    destruct (solve_rBigM _ _ _) as [results vals]. simpl in *.
    destruct (verify_successful_solve results); [contradiction | |]; simpl;
      unfold with_world, emit, set_values; simpl; rewrite <- app_assoc; reflexivity. }
  split; [exact Hround|]. simpl. rewrite Hround. reflexivity.
Qed.

End LoopFacts.

Lemma rBigM_failure_returns_witness :
  fst (@loop failing_rBigM (Sample.config create_cuts_normal_vector None) Sample.sub
         sample_objective 3 true PInf sample_start)
  = Finished rBigM_solve_failed.
Proof.
  assert (Hfail : INFEASIBLE <> NORMAL) by discriminate.
  exact (f_equal fst
           (proj2 (@rBigM_failure_returns failing_rBigM
                     (Sample.config create_cuts_normal_vector None) Sample.sub
                     sample_objective 2 PInf sample_start Hfail))).
Defined.

Lemma separation_failure_exit_unreachable_witness :
  fst (@round (Sample.collaborators Sample.failing_separation)
         (Sample.config create_cuts_normal_vector None) Sample.sub sample_objective
         PInf sample_start)
  <> Exit separation_solve_failed.
Proof.
  exact (@separation_failure_exit_unreachable
           (Sample.collaborators Sample.failing_separation)
           (Sample.config create_cuts_normal_vector None) Sample.sub sample_objective
           PInf sample_start).
Defined.

Lemma loop_never_leaves_at_its_head_witness :
  fst (@loop (Sample.collaborators Sample.all_normal)
         (Sample.config create_cuts_normal_vector None) Sample.sub sample_objective
         5 true PInf sample_start)
  <> Finished while_condition_false.
Proof.
  exact (@loop_never_leaves_at_its_head (Sample.collaborators Sample.all_normal)
           (Sample.config create_cuts_normal_vector None) Sample.sub sample_objective
           5 PInf sample_start).
Defined.

(** ** Padding a cut *)

(** A pad that is not negative relaxes a constraint that has only a lower
    bound and tightens one that has only an upper bound. *)
Theorem nonnegative_pad (vals : var -> Q) (prm : nat -> Q) (c : ConstraintData) (pad : Q) :
  0 <= pad ->
  (upper c = None -> satisfied vals prm c = true ->
   satisfied vals prm (add_to_body c pad) = true) /\
  (lower c = None -> satisfied vals prm (add_to_body c pad) = true ->
   satisfied vals prm c = true).
Proof.
  intros Hpad. unfold satisfied, add_to_body. simpl. split.
  - intros ->. rewrite !andb_true_r. destruct (lower c) as [l|]; [|reflexivity].
    intros Hle. apply Qle_bool_iff in Hle. apply Qle_bool_iff. lra.
  - intros ->. simpl. destruct (upper c) as [u|]; [|reflexivity].
    intros Hle. apply Qle_bool_iff in Hle. apply Qle_bool_iff. lra.
Qed.

(** [0 <= 5 - x] holds at [x = 5] and still does after a pad; the padded
    [x - 5 <= 0] fails there. *)
Lemma nonnegative_pad_witness :
  satisfied (fun _ => 5) (fun _ => 0) (add_to_body BackOff.cut_lower BackOff.TOL) = true /\
  satisfied (fun _ => 5) (fun _ => 0) (add_to_body BackOff.cut_upper BackOff.TOL) = false.
Proof.
  split.
  - apply (proj1 (nonnegative_pad (fun _ => 5) (fun _ => 0) BackOff.cut_lower BackOff.TOL
                    ltac:(discriminate)));
      reflexivity.
  - reflexivity.
Defined.

(** After a calculated back-off whose solve was normal, the body of the cut,
    in hull variables, is at least the tolerance at the point the solve
    found, and exactly the tolerance when the cut was padded. *)
Theorem calculated_back_off_clears `{Collaborators} (instance_rHull : Model)
    (transBlock_rHull : HullBlock) (cut : ConstraintData)
    (bigm_to_hull_map : gmap var var) (TOL : Q) (w : World) :
  let solved := solve_rHull instance_rHull
                  (back_off_block transBlock_rHull cut bigm_to_hull_map) (values w) in
  let at_point e := value (snd solved) (xstar transBlock_rHull)
                          (substitute bigm_to_hull_map e) in
  let cut' := cut_after (back_off_constraint_with_calculated_cut_violation
                           instance_rHull transBlock_rHull cut bigm_to_hull_map TOL w) in
  verify_successful_solve (fst solved) = NORMAL ->
  TOL <= at_point (body cut') /\
  (at_point (body cut) <= TOL -> at_point (body cut') == TOL) /\
  lower cut' = lower cut /\ upper cut' = upper cut.
Proof.
  intros solved at_point cut' Hnormal.
  set (V := at_point (body cut)).
  assert (Hcut : cut' = if Qle_bool (V - TOL) 0 then add_to_body cut (Qabs (V - TOL))
                        else cut).
  { subst cut' V at_point solved.
    unfold back_off_constraint_with_calculated_cut_violation.
    fold (back_off_block transBlock_rHull cut bigm_to_hull_map).
    destruct (solve_rHull instance_rHull _ (values w)) as [results vals].
    cbn [fst snd] in *. rewrite Hnormal. cbn [is_NORMAL negb].
    destruct (Qle_bool _ 0); reflexivity. }
  rewrite Hcut. destruct (Qle_bool (V - TOL) 0) eqn:Hle.
  - apply Qle_bool_iff in Hle.
    assert (Habs : Qabs (V - TOL) == TOL - V).
    { transitivity (- (V - TOL)); [exact (Qabs_neg _ Hle) | ring]. }
    assert (Hpad : at_point (body (add_to_body cut (Qabs (V - TOL))))
                   == V + Qabs (V - TOL)) by reflexivity.
    split; [rewrite Hpad, Habs; apply Qle_lteq; right; ring|].
    split; [intros _; rewrite Hpad, Habs; ring|].
    split; reflexivity.
  - assert (Hgt : 0 < V - TOL).
    { apply Qnot_le_lt. intros Hc. apply Qle_bool_iff in Hc. congruence. }
    fold V. split; [lra|]. split; [intros Hc; lra|]. split; reflexivity.
Qed.

Lemma calculated_back_off_clears_witness :
  let H := Sample.collaborators BackOff.answers in
  BackOff.TOL
  <= value (snd (solve_rHull Sample.hull_model
                   (back_off_block (block_rHull Sample.sub) BackOff.cut_lower BackOff.to_hull)
                   (values Sample.w0)))
           (xstar (block_rHull Sample.sub))
           (substitute BackOff.to_hull
              (body (cut_after
                       (back_off_constraint_with_calculated_cut_violation Sample.hull_model
                          (block_rHull Sample.sub) BackOff.cut_lower BackOff.to_hull
                          BackOff.TOL Sample.w0)))).
Proof.
  intros H.
  exact (proj1 (@calculated_back_off_clears H Sample.hull_model (block_rHull Sample.sub)
                  BackOff.cut_lower BackOff.to_hull BackOff.TOL Sample.w0 eq_refl)).
Defined.

(** The back-off solve of the sample fails: NameError, and the hull block is
    left with the back-off objective in place of the separation objective. *)
Lemma calculated_back_off_failure_witness :
  let H := Sample.collaborators Sample.failing_back_off in
  let r := back_off_constraint_with_calculated_cut_violation Sample.hull_model
             (block_rHull Sample.sub) BackOff.cut_lower BackOff.to_hull BackOff.TOL
             Sample.w0 in
  fst r = Raise NameError /\
  block_after r = back_off_block (block_rHull Sample.sub) BackOff.cut_lower BackOff.to_hull.
Proof.
  intros H r.
  assert (Hfail : NONOPTIMAL <> NORMAL) by discriminate.
  pose proof (@calculated_back_off_failure H Sample.hull_model (block_rHull Sample.sub)
                BackOff.cut_lower BackOff.to_hull BackOff.TOL Sample.w0 Hfail) as Hr.
  split; [exact (f_equal fst Hr) | exact (f_equal block_after Hr)].
Defined.

(** ** Errors *)

(** Without an active objective on the linear relaxation the transformation
    fails with GDP_Error before any solve: nothing is logged, no cut is
    added, and the instance stays as the builder left it. *)
Theorem no_active_objective_fails `{Collaborators} (config : Config) (instance : Model)
    (bigM : option Q) (fuel : nat) (w : World) (sub : Subproblems) :
  _setup_subproblems instance bigM (tighten_relaxation config) = Ok sub ->
  Forall (fun o => o_active o = false) (m_objectives (instance_rBigM sub)) ->
  _generate_cuttingplanes config sub fuel w = (Failed GDP_Error, initial_state sub w) /\
  _apply_to config instance bigM fuel w
  = Ok (Failed GDP_Error, initial_state sub w, instance_rBigM sub).
Proof.
  intros Hsetup Hnone.
  assert (Hfind : List.find o_active (m_objectives (instance_rBigM sub)) = None).
  { induction Hnone as [|o os Ho _ IH]; simpl; [reflexivity|]. rewrite Ho. exact IH. }
  assert (Hgen : _generate_cuttingplanes config sub fuel w
                 = (Failed GDP_Error, initial_state sub w)).
  { unfold _generate_cuttingplanes. rewrite Hfind. reflexivity. }
  split; [exact Hgen|].
  unfold _apply_to. rewrite Hsetup. simpl. rewrite Hgen. reflexivity.
Qed.

Lemma no_active_objective_fails_witness :
  let H := Sample.collaborators Sample.all_normal in
  exists r,
    _apply_to (Sample.config create_cuts_normal_vector None) no_objective None 5 Sample.w0
    = Ok r /\ fst (fst r) = Failed GDP_Error /\ log (world (snd (fst r))) = [].
Proof.
  intros H.
  destruct (_setup_subproblems no_objective None
              (tighten_relaxation (Sample.config create_cuts_normal_vector None)))
    as [sub|e] eqn:Hsetup; [|vm_compute in Hsetup; discriminate].
  assert (Hnone : Forall (fun o => o_active o = false) (m_objectives (instance_rBigM sub))).
  { vm_compute in Hsetup. injection Hsetup as <-. repeat constructor. }
  destruct (no_active_objective_fails (Sample.config create_cuts_normal_vector None)
              no_objective None 5 Sample.w0 sub Hsetup Hnone) as [_ Happly].
  eexists. split; [exact Happly|]. split; reflexivity.
Defined.

Section KeyErrors.
Context `{Collaborators}.

Lemma collect_raises vals prm rHull_vars dc cs : forall acc e,
  for_each (collect_tight vals prm rHull_vars dc) cs acc = Raise e -> e = IndexError.
Proof.
  induction cs as [|c cs IH]; intros acc e; simpl; [discriminate|].
  destruct (collect_tight vals prm rHull_vars dc acc c) as [acc'|e'] eqn:Hc; simpl.
  - apply IH.
  - intros [= <-]. revert Hc. unfold collect_tight. destruct acc as [nv cl].
    destruct (negb _); [|destruct (bool_decide _); discriminate].
    destruct (bool_decide _); [discriminate|].
    unfold _get_linear_approximation_expr.
    match goal with |- context [sum_normal_times_value ?v ?n 0 ?p 0] =>
      pose proof (sum_normal_times_value_spec v n p 0 0 ltac:(lia)) as Hs;
        destruct (sum_normal_times_value v n 0 p 0) as [s|e0] end; simpl; [discriminate|].
    destruct Hs as [-> _]. intros [= <-]. reflexivity.
Qed.

Lemma composite_map_keys (rHull_vars : list var) : forall (composite : list Q) (m : gmap var Q) v,
  is_Some (fold_left (fun m vn => <[fst vn := snd vn]> m) (zip rHull_vars composite) m !! v) ->
  In v rHull_vars \/ is_Some (m !! v).
Proof.
  induction rHull_vars as [|a vs IH]; intros [|n ns] m v; simpl; auto.
  intros Hsome. destruct (IH ns _ v Hsome) as [Hin | Hm]; [left; right; exact Hin|].
  destruct (decide (a = v)) as [-> | Hne]; [left; left; reflexivity|].
  rewrite lookup_insert_ne in Hm by exact Hne. right. exact Hm.
Qed.

Lemma for_each_key_error {A S : Type} (f : S -> A -> outcome S) (l : list A) :
  (forall s a e, f s a = Raise e -> e = KeyError) ->
  (exists a, In a l /\ forall s, f s a = Raise KeyError) ->
  forall s, for_each f l s = Raise KeyError.
Proof.
  intros Honly (a & Hin & Hraise).
  induction l as [|b l IH]; intros s; [destruct Hin|]. simpl.
  destruct (f s b) as [s'|e] eqn:Hf; simpl.
  - destruct Hin as [-> | Hin]; [rewrite Hraise in Hf; discriminate | apply IH, Hin].
  - rewrite (Honly _ _ _ Hf). reflexivity.
Qed.

(** When a triple's hull variable is not among [rHull_vars], the
    Fourier-Motzkin generator never returns a cut: it returns None when no
    constraint is tight, and raises KeyError (or the IndexError of the
    linear approximation) otherwise. *)
Theorem fme_missing_hull_variable (var_info : list triple)
    (hull_to_bigm_map : gmap var var) (disaggregated_vars : list var)
    (disaggregation_constraints : gset nat) (rHull_vars : list var)
    (instance_rHull : Model) (rBigM_linear_constraints : list ConstraintData)
    (transBlock_rBigm : TransBlock) (transBlock_rHull : HullBlock)
    (cut_threshold zero_tolerance : Q) (vals : var -> Q) :
  (exists t, In t var_info /\ ~ In (x_hull t) rHull_vars) ->
  match create_cuts_fme var_info hull_to_bigm_map disaggregated_vars
          disaggregation_constraints rHull_vars instance_rHull rBigM_linear_constraints
          transBlock_rBigm transBlock_rHull cut_threshold zero_tolerance vals with
  | Ok (Some _) => False
  | Ok None =>
      exists conslist,
        for_each (collect_tight vals (xstar transBlock_rHull) rHull_vars
                    disaggregation_constraints)
                 (m_constraints instance_rHull) ([], []) = Ok ([], conslist)
  | Raise e => e = KeyError \/ e = IndexError
  end.
Proof.
  intros (t & Hin & Hmissing). unfold create_cuts_fme, fme_candidates.
  destruct (for_each _ (m_constraints instance_rHull) ([], [])) as [[nv cl]|e] eqn:Hcollect;
    simpl.
  - destruct (bool_decide (nv = [])) eqn:Hnv; simpl.
    + apply bool_decide_eq_true in Hnv. subst nv. eauto.
    + match goal with |- context [for_each ?f var_info ?s] =>
        rewrite (for_each_key_error f var_info) end; simpl; [left; reflexivity | |].
      * intros s a e. unfold getitem. destruct (_ !! x_hull a); simpl; [discriminate|].
        intros [= <-]. reflexivity.
      * exists t. split; [exact Hin|]. intros s. unfold getitem.
        match goal with |- context [?m !! x_hull t] => destruct (m !! x_hull t) eqn:Hl end;
          [|reflexivity].
        exfalso.
        destruct (composite_map_keys rHull_vars (column_sums nv) ∅ (x_hull t)) as [Hv | Hv];
          [rewrite Hl; eauto | exact (Hmissing Hv) |].
        rewrite lookup_empty in Hv. destruct Hv as [? Hv]. discriminate.
  - right. exact (collect_raises _ _ _ _ _ _ _ Hcollect).
Qed.

End KeyErrors.

(** The hull variable of the sample left out of [rHull_vars], at the point
    [xh = 1], where the upper bound of [0 <= xh <= 1] is tight. *)
Lemma fme_missing_hull_variable_witness :
  @create_cuts_fme (Sample.collaborators Sample.all_normal) Sample.triples ∅ [] ∅
    [] Sample.hull_model [] (block_rBigM Sample.sub) (block_rHull Sample.sub)
    0.001 0.000000001 (fun _ => 1) = Raise KeyError.
Proof.
  pose proof (@fme_missing_hull_variable (Sample.collaborators Sample.all_normal)
                Sample.triples ∅ [] ∅ [] Sample.hull_model [] (block_rBigM Sample.sub)
                (block_rHull Sample.sub) 0.001 0.000000001 (fun _ => 1)) as Hm.
  destruct (@create_cuts_fme (Sample.collaborators Sample.all_normal) Sample.triples ∅ [] ∅
              [] Sample.hull_model [] (block_rBigM Sample.sub) (block_rHull Sample.sub)
              0.001 0.000000001 (fun _ => 1)) as [[l|]|e] eqn:Hrun.
  - exfalso. apply Hm. exists (Build_triple Sample.x Sample.xh 0). split; [left; reflexivity|].
    intros [].
  - vm_compute in Hrun. discriminate.
  - vm_compute in Hrun. symmetry. exact Hrun.
Defined.

(** ** A pass with the normal-vector generator *)

Lemma squared_distance_nonneg var_info hv tv : 0 <= squared_distance var_info hv tv.
Proof.
  induction var_info as [|t ts IH]; simpl; [lra|].
  pose proof (square_nonneg (hv (x_hull t) - tv (x_star t))). lra.
Qed.

(** With the normal-vector generator and a cut-filtering threshold below the
    minimum-improvement threshold (as the defaults are), a pass that is past
    the convergence test, with the linear variables still at the target
    point and the flag set, does not stall: the generator returns its cut,
    the cut is stored, and the pass goes back to the head of the loop unless
    the post-processing raised. *)
Theorem normal_vector_pass_adds_a_cut `{Collaborators} (config : Config)
    (sub : Subproblems) (rBigM_obj : ObjectiveData) (prev : xfloat) (st : State)
    (objval : Q) (st1 : State) :
  create_cuts config = create_cuts_normal_vector ->
  separate config sub rBigM_obj prev st = inr (objval, true, st1) ->
  o_expr (separation_objective (transBlock_rHull st1)) = separation_expr (var_info sub) ->
  Forall (fun t => values (world st1) (x_rbigm t) == xstar (transBlock_rHull st1) (x_star t))
         (var_info sub) ->
  cut_filtering_threshold config < minimum_improvement_threshold config ->
  ~ Qabs (separation_distance st1) < minimum_improvement_threshold config ->
  dense (cuts (transBlock_rBigM st)) ->
  let r := round config sub rBigM_obj prev st in
  (fst r = Next true (Fin objval) \/ exists e, fst r = Raised e) /\
  size (cuts (transBlock_rBigM (snd r))) = S (size (cuts (transBlock_rBigM st))).
Proof.
  intros Hgen Hsep Hexpr Htarget Hthr Hfar Hdense r. subst r.
  destruct (separate_inr config sub rBigM_obj prev st objval true st1 Hsep)
    as (_ & _ & _ & Hblock & _).
  set (d := squared_distance (var_info sub) (values (world st1)) (xstar (transBlock_rHull st1))).
  assert (Hd : separation_distance st1 == d).
  { unfold separation_distance. rewrite Hexpr. apply separation_expr_value. }
  assert (Hd0 : 0 <= d) by apply squared_distance_nonneg.
  assert (Hdfar : minimum_improvement_threshold config <= d).
  { apply Qnot_lt_le. intros Hc. apply Hfar. rewrite Hd, Qabs_pos by exact Hd0. exact Hc. }
  unfold round. rewrite Hsep.
  assert (Hnot : Qltb (Qabs (separation_distance st1)) (epsilon config) = false).
  { apply Qltb_ge. apply Qnot_lt_le. exact Hfar. }
  rewrite Hnot, Hgen. unfold create_cuts_normal_vector. cbn [with_world world transBlock_rHull].
  cbn [emit values].
  set (cutexpr := normal_vector_cutexpr (var_info sub) (values (world st1))
                    (xstar (transBlock_rHull st1))).
  assert (Hval : value (values (world st1)) (xstar (transBlock_rHull st1)) cutexpr == - d).
  { unfold cutexpr. rewrite normal_vector_cutexpr_value.
    rewrite (normal_vector_sum_target _ _ _ Htarget). apply sum_at_target_distance. }
  assert (Hlt : Qltb (value (values (world st1)) (xstar (transBlock_rHull st1)) cutexpr)
                     (- cut_filtering_threshold config) = true).
  { apply Qltb_lt. rewrite Hval. lra. }
  rewrite Hlt. cbn [negb add_cuts].
  match goal with |- context [add_cut config sub ?s ?c] =>
    pose proof (add_cut_store config sub s c) as Hstore;
      destruct (add_cut config sub s c) as [[u|e] st2] end;
    cbn [fst snd add_cuts] in *; rewrite Hstore; unfold with_world;
    cbn [transBlock_rBigM]; rewrite Hblock;
    (split; [eauto | apply map_size_insert_None, dense_fresh, Hdense]).
Qed.

(** The first pass of the sample. *)
Lemma normal_vector_pass_adds_a_cut_witness :
  let H := Sample.collaborators Sample.all_normal in
  let cfg := Sample.config create_cuts_normal_vector None in
  size (cuts (transBlock_rBigM
                (snd (round cfg Sample.sub sample_objective PInf sample_start)))) = 1%nat.
Proof.
  intros H cfg.
  assert (Hsep : separate cfg Sample.sub sample_objective PInf sample_start
                 = inr (?[objval], true, ?[st1]))
    by (vm_compute; reflexivity).
  refine (proj2 (normal_vector_pass_adds_a_cut cfg Sample.sub sample_objective PInf
                   sample_start _ _ eq_refl Hsep _ _ _ _ _)).
  - reflexivity.
  - repeat constructor.
  - reflexivity.
  - intros Hc. vm_compute in Hc. discriminate.
  - reflexivity.
Defined.

(** ** More on the cut store *)

Section StoreCounts.
Context `{Collaborators}.
Variable config : Config.
Variable sub : Subproblems.

(** When the loop over the candidates of a pass completes, the store has
    grown by their number. *)
Theorem add_cuts_count (st : State) (cs : list ineq) :
  dense (cuts (transBlock_rBigM st)) ->
  fst (add_cuts config sub st cs) = Ok () ->
  size (cuts (transBlock_rBigM (snd (add_cuts config sub st cs))))
  = (size (cuts (transBlock_rBigM st)) + length cs)%nat.
Proof.
  revert st. induction cs as [|cut cs IH]; intros st Hd; simpl; [intros _; lia|].
  destruct (add_cut_grows config sub st cut Hd) as [_ Hd'].
  pose proof (add_cut_store config sub st cut) as Hstore.
  destruct (add_cut config sub st cut) as [[u|e] st1]; simpl in *; [|discriminate].
  intros Hok. rewrite (IH st1 Hd' Hok), Hstore.
  rewrite (map_size_insert_None _ _ _ (dense_fresh _ Hd)). lia.
Qed.

(** When the calculated back-off is configured and its solve is not normal,
    [add_cut] raises NameError with the candidate in the store, unpadded, at
    the index it was given; the loop over the candidates stops there. *)
Theorem failed_back_off_leaves_cut (st : State) (cut : ineq) (rest : list ineq) :
  post_process_cut config = Some back_off_constraint_with_calculated_cut_violation ->
  let n := size (cuts (transBlock_rBigM st)) in
  let solved :=
    solve_rHull (instance_rHull sub)
      (back_off_block (transBlock_rHull st) (set_value cut) (bigm_to_hull_map sub))
      (values (world st)) in
  verify_successful_solve (fst solved) <> NORMAL ->
  fst (add_cut config sub st cut) = Raise NameError /\
  cuts (transBlock_rBigM (snd (add_cut config sub st cut)))
  = <[n := set_value cut]> (cuts (transBlock_rBigM st)) /\
  add_cuts config sub st (cut :: rest) = add_cut config sub st cut.
Proof.
  intros Hpp n solved Hfail.
  assert (Hrun : fst (add_cut config sub st cut) = Raise NameError /\
                 cuts (transBlock_rBigM (snd (add_cut config sub st cut)))
                 = <[n := set_value cut]> (cuts (transBlock_rBigM st))).
  { pose proof (calculated_back_off_failure (instance_rHull sub) (transBlock_rHull st)
                  (set_value cut) (bigm_to_hull_map sub) (back_off_problem_tolerance config)
                  (emit (Post_process n) (emit (Warning (adding_cut n)) (world st))) Hfail)
      as Hback.
    subst n. unfold add_cut. rewrite Hpp, lookup_insert_eq.
    cbn [world transBlock_rHull transBlock_rBigM]. rewrite Hback.
    cbn [fst snd transBlock_rBigM with_cuts cuts]. split; [reflexivity|].
    apply insert_insert_eq. }
  split; [apply Hrun|]. split; [apply Hrun|].
  simpl. destruct (add_cut config sub st cut) as [[u|e] st1]; simpl in *;
    destruct Hrun as [Hr _]; [discriminate | congruence].
Qed.

End StoreCounts.

Lemma add_cuts_count_witness :
  let H := Sample.collaborators Sample.all_normal in
  let cfg := Sample.config create_cuts_normal_vector
                           (Some back_off_constraint_by_fixed_tolerance) in
  let cs := [Le (Num 0) (V Sample.x); Le (Num 0) (Minus (Num 1) (V Sample.x))] in
  size (cuts (transBlock_rBigM (snd (add_cuts cfg Sample.sub sample_start cs)))) = 2%nat.
Proof.
  intros H cfg cs.
  exact (add_cuts_count cfg Sample.sub sample_start cs eq_refl eq_refl).
Defined.

Lemma failed_back_off_leaves_cut_witness :
  let H := Sample.collaborators Sample.failing_back_off in
  let cfg := Sample.config create_cuts_normal_vector
                           (Some back_off_constraint_with_calculated_cut_violation) in
  let cut := Le (Num 0) (Minus (Num 1) (V Sample.x)) in
  fst (add_cut cfg Sample.sub sample_start cut) = Raise NameError /\
  cuts (transBlock_rBigM (snd (add_cut cfg Sample.sub sample_start cut)))
  = <[0%nat := set_value cut]> ∅.
Proof.
  intros H cfg cut.
  assert (Hfail : NONOPTIMAL <> NORMAL) by discriminate.
  destruct (failed_back_off_leaves_cut cfg Sample.sub sample_start cut [] eq_refl Hfail)
    as (Hr & Hs & _).
  split; [exact Hr | exact Hs].
Defined.

(** ** The composite normal *)

Lemma column_sums_single v i : nth i (map (fun x => 0 + x) v) 0 == nth i v 0 + 0.
Proof.
  revert i. induction v as [|x v IH]; intros [|i]; simpl; try ring. apply IH.
Qed.

Lemma zip_with_nth (a b : list Q) n :
  length a = n -> length b = n ->
  length (zip_with Qplus a b) = n /\
  forall i, nth i (zip_with Qplus a b) 0 == nth i a 0 + nth i b 0.
Proof.
  revert b n. induction a as [|x a IH]; intros [|y b] n Ha Hb; simpl in *; try lia.
  - split; [exact Ha|]. intros [|i]; ring.
  - destruct n as [|n]; [lia|].
    destruct (IH b n ltac:(lia) ltac:(lia)) as [Hlen Hnth].
    split; [lia|]. intros [|i]; simpl; [reflexivity | apply Hnth].
Qed.

(** For normal vectors of one length the composite normal has that length
    and its components are the sums of theirs. *)
Theorem composite_normal_is_the_sum (normal_vectors : list (list Q)) (n : nat) :
  normal_vectors <> [] ->
  Forall (fun v => length v = n) normal_vectors ->
  length (column_sums normal_vectors) = n /\
  forall i, nth i (column_sums normal_vectors) 0 == column i normal_vectors.
Proof.
  intros Hne Hall. induction Hall as [|v rest Hv Hrest IH]; [contradiction|].
  destruct rest as [|v' rest'].
  - simpl. split; [rewrite length_map; exact Hv|]. intros i. apply column_sums_single.
  - destruct (IH ltac:(discriminate)) as [Hlen Hnth].
    change (column_sums (v :: v' :: rest'))
      with (zip_with Qplus v (column_sums (v' :: rest'))).
    destruct (zip_with_nth v (column_sums (v' :: rest')) n Hv Hlen) as [Hl Hn].
    split; [exact Hl|]. intros i. rewrite Hn, Hnth. reflexivity.
Qed.

Lemma composite_normal_is_the_sum_witness :
  length (column_sums [[1; 2]; [3; 4]; [5; 6]]) = 2%nat.
Proof.
  refine (proj1 (composite_normal_is_the_sum [[1; 2]; [3; 4]; [5; 6]] 2 _ _)).
  - discriminate.
  - repeat constructor.
Defined.
